(** * oh-my-logo: the Japanese block-art renderer

    A shallow embedding of [src/japanese-renderer.ts] (font store parser,
    codepoint resolver, placeholder patterns, compositor, directional
    colorizer, [containsJapanese]) and of [createJapaneseBlock] from the ink
    front end, together with the properties the specification states about
    them.

    Conventions.
    - A JavaScript string is the list of its UTF-16 code units, each a [Z]
      in [0, 65535]; [length] is therefore JavaScript's [.length].
    - A JavaScript exception is an explicit [Throw] result.
    - The external libraries (jconv, encoding-japanese, gradient-string,
      string-width) are section variables: every theorem holds whatever they
      compute.
    - [console.log]/[console.warn] output is not modelled. *)

From Stdlib Require Import ZArith List Lia Bool Ascii String.
From Stdlib Require Import Floats Uint63.
From stdpp Require Import base option list gmap.

Import ListNotations.
Local Open Scope Z_scope.

Abbreviation jsstring := (list Z) (only parsing).

(** ** JavaScript strings *)

Module JS.

(** An ASCII literal as a JavaScript string. *)
Definition lit (s : string) : jsstring :=
  map (fun a => Z.of_N (N_of_ascii a)) (list_ascii_of_string s).

Definition is_high_surrogate (u : Z) : bool := (0xD800 <=? u) && (u <=? 0xDBFF).
Definition is_low_surrogate (u : Z) : bool := (0xDC00 <=? u) && (u <=? 0xDFFF).

(** [Array.from(text)]: the string iterator yields one string per code
    point; a high surrogate followed by a low surrogate is one element of
    two code units, every other code unit (a lone surrogate too) is an
    element of its own. *)
Fixpoint Array_from (text : jsstring) : list jsstring :=
  match text with
  | [] => []
  | u :: rest =>
      match rest with
      | v :: rest' =>
          if is_high_surrogate u && is_low_surrogate v
          then [u; v] :: Array_from rest'
          else [u] :: Array_from rest
      | [] => [[u]]
      end
  end.

(** [s.codePointAt(0)] of one element of [Array.from]: the Unicode scalar
    (or lone surrogate) the element stands for. *)
Definition codePoint (char : jsstring) : Z :=
  match char with
  | [u; v] =>
      if is_high_surrogate u && is_low_surrogate v
      then 0x10000 + (u - 0xD800) * 0x400 + (v - 0xDC00)
      else u
  | u :: _ => u
  | [] => -1
  end.

(** [s.split('\n')]; the result always has at least one element. *)
Fixpoint split_nl_aux (cur : jsstring) (s : jsstring) : list jsstring :=
  match s with
  | [] => [rev cur]
  | u :: rest =>
      if u =? 10 then rev cur :: split_nl_aux [] rest
      else split_nl_aux (u :: cur) rest
  end.

Definition split_nl (s : jsstring) : list jsstring := split_nl_aux [] s.

(** [rows.join(sep)]. *)
Fixpoint join (sep : jsstring) (rows : list jsstring) : jsstring :=
  match rows with
  | [] => []
  | [r] => r
  | r :: rest => r ++ sep ++ join sep rest
  end.

Definition join_nl (rows : list jsstring) : jsstring := join [10] rows.

(** White space and line terminators, as [String.prototype.trim] strips. *)
Definition is_whitespace (u : Z) : bool :=
  ((9 <=? u) && (u <=? 13)) || (u =? 0x20) || (u =? 0xA0) || (u =? 0x1680)
  || ((0x2000 <=? u) && (u <=? 0x200A)) || (u =? 0x2028) || (u =? 0x2029)
  || (u =? 0x202F) || (u =? 0x205F) || (u =? 0x3000) || (u =? 0xFEFF).

Fixpoint trimStart (s : jsstring) : jsstring :=
  match s with
  | u :: rest => if is_whitespace u then trimStart rest else s
  | [] => []
  end.

Definition trim (s : jsstring) : jsstring := rev (trimStart (rev (trimStart s))).

(** [s.trim() === ''] *)
Definition is_blank (s : jsstring) : bool :=
  match trim s with [] => true | _ => false end.

(** [s.startsWith(p)] *)
Fixpoint startsWith (p s : jsstring) : bool :=
  match p, s with
  | [], _ => true
  | a :: p', b :: s' => (a =? b) && startsWith p' s'
  | _ :: _, [] => false
  end.

(** [s.includes(p)] *)
Fixpoint includes (p s : jsstring) : bool :=
  startsWith p s || match s with [] => false | _ :: s' => includes p s' end.

(** [s.replace(p, r)] for a string pattern: the first occurrence only. *)
Fixpoint replace (p r s : jsstring) : jsstring :=
  if startsWith p s then r ++ skipn (Datatypes.length p) s
  else match s with
       | [] => []
       | u :: s' => u :: replace p r s'
       end.

(** [s.replace(/c/g, r)] for a one-character pattern: every occurrence. *)
Definition replaceAll1 (c : Z) (r s : jsstring) : jsstring :=
  flat_map (fun u => if u =? c then r else [u]) s.

(** [s.repeat(n)]; the callers below only pass counts that are
    non-negative (see [createJapaneseBlock_counts]), so the [RangeError] of
    a negative count does not arise. *)
Definition repeat (s : jsstring) (n : Z) : jsstring :=
  concat (List.repeat s (Z.to_nat n)).

(** [s.padStart(n, '0')]-style padding with a one-character filler. *)
Definition padStart (s : jsstring) (n : Z) (fill : Z) : jsstring :=
  List.repeat fill (Z.to_nat (n - Z.of_nat (Datatypes.length s))) ++ s.

(** [s.toLowerCase()] on the ASCII letters; the renderer applies it to
    hexadecimal text only. *)
Definition toLowerCase (s : jsstring) : jsstring :=
  map (fun u => if (65 <=? u) && (u <=? 90) then u + 32 else u) s.

End JS.

(** ** Completions: a value or a thrown exception *)

Inductive js_error : Type :=
| TypeError
| LibraryError (code : Z).

Inductive completion (A : Type) : Type :=
| Normal (a : A)
| Throw (e : js_error).

Arguments Normal {A} a.
Arguments Throw {A} e.

Definition cbind {A B} (c : completion A) (k : A -> completion B) : completion B :=
  match c with
  | Normal a => k a
  | Throw e => Throw e
  end.

(** [try { body } catch (e) { handler }] *)
Definition try_catch {A} (body : completion A) (handler : js_error -> completion A)
  : completion A :=
  match body with
  | Normal a => Normal a
  | Throw e => handler e
  end.

#[global] Instance completion_ret : MRet completion := fun A a => Normal a.
#[global] Instance completion_bind : MBind completion :=
  fun A B k c => cbind c k.

(** ** [containsJapanese] *)

Definition in_japanese_range (code : Z) : bool :=
  ((0x3040 <=? code) && (code <=? 0x309F))       (* Hiragana *)
  || ((0x30A0 <=? code) && (code <=? 0x30FF))    (* Katakana *)
  || ((0x4E00 <=? code) && (code <=? 0x9FFF)).   (* CJK Unified Ideographs *)

(** [Array.from(text).some(char => { const code = char.charCodeAt(0); ... })].
    [charCodeAt(0)] is the first code unit of the element. *)
Definition containsJapanese (text : jsstring) : bool :=
  existsb (fun char =>
             match char with
             | code :: _ => in_japanese_range code
             | [] => false
             end)
          (JS.Array_from text).

(** An element of [Array.from]: every one is one code unit or a well-formed surrogate pair. *)
Definition is_code_point (char : list Z) : Prop :=
  (exists u, char = [u]) \/
  (exists u v, char = [u; v] /\
               JS.is_high_surrogate u && JS.is_low_surrogate v = true).

(** A code unit of the ASCII and Latin blocks (up to Latin Extended-B). *)
Definition is_latin (u : Z) : Prop := 0 <= u <= 0x24F.

(** ** Numbers: the 32-bit operators and [toString(16)] *)

Module Num.

(** ToInt32 of an integral number. *)
Definition ToInt32 (x : Z) : Z :=
  let m := x mod 2 ^ 32 in
  if m <? 2 ^ 31 then m else m - 2 ^ 32.

(** [x << n] *)
Definition shl (x n : Z) : Z := ToInt32 (Z.shiftl (ToInt32 x) (n mod 32)).

(** [x | y] *)
Definition bor (x y : Z) : Z := ToInt32 (Z.lor (ToInt32 x) (ToInt32 y)).

(** The digit characters '0'..'9', 'a'..'f'. *)
Definition hex_digit (d : Z) : Z := if d <? 10 then 48 + d else 87 + d.

Fixpoint hex_digits (fuel : nat) (n : Z) (acc : jsstring) : jsstring :=
  match fuel with
  | O => acc
  | S fuel' =>
      let acc' := hex_digit (n mod 16) :: acc in
      if n / 16 =? 0 then acc' else hex_digits fuel' (n / 16) acc'
  end.

(** [n.toString(16)] of an integral number: a minus sign for a negative
    one, then the digits of its magnitude, no leading zeros. A number below
    [2^k] has at most [k] digits, so the fuel is never exhausted. *)
Definition toString16 (n : Z) : jsstring :=
  if n <? 0
  then 45 :: hex_digits (S (Z.to_nat (Z.log2 (- n)))) (- n) []
  else hex_digits (S (Z.to_nat (Z.log2 n))) n [].

End Num.

(** ** Glyph Font Store: [parseJisFontData] *)

(** The ink cell of the block builder ([src/unnamed/part_000]): U+2588
    FULL BLOCK, one code unit. *)
Definition ink : Z := 0x2588.

(** The ink literal of [japanese-renderer.ts]. Wherever a full block is
    meant, the file holds the three characters U+201A U+0116 U+0105 (the
    UTF-8 bytes E2 96 88 of U+2588 read in a Central European code page):
    a string of three code units. *)
Definition ink_literal : jsstring := [0x201A; 0x0116; 0x0105].

Definition is_digit (u : Z) : bool := (48 <=? u) && (u <=? 57).

Definition is_hex_digit (u : Z) : bool :=
  is_digit u || ((97 <=? u) && (u <=? 102)) || ((65 <=? u) && (u <=? 70)).

(** The longest prefix of decimal digits, and what follows it. *)
Fixpoint span_digits (s : jsstring) : jsstring * jsstring :=
  match s with
  | u :: rest =>
      if is_digit u
      then let '(ds, tl) := span_digits rest in (u :: ds, tl)
      else ([], s)
  | [] => ([], [])
  end.

(** [line.match(/^(\d+) ([0-9a-fA-F]+)$/)]: the two groups of a header
    line. A space is no digit, so the greedy [\d+] never has to give
    characters back. *)
Definition match_header (line : jsstring) : option (jsstring * jsstring) :=
  match span_digits line with
  | ((_ :: _) as dec, 32 :: ((_ :: _) as hex)) =>
      if forallb is_hex_digit hex then Some (dec, hex) else None
  | _ => None
  end.

(** [while (i < lines.length && !lines[i].match(...)) i++]; the cursor [i]
    is kept as the lines from index [i] on. *)
Fixpoint skip_header (lines : list jsstring) : list jsstring :=
  match lines with
  | l :: rest =>
      match match_header l with
      | Some _ => lines
      | None => skip_header rest
      end
  | [] => []
  end.

(** The inner loop that reads one glyph: it stops with the cursor ON the
    end-marker line (the [break] skips [i++]) or past the last line. *)
Fixpoint read_glyph (lines : list jsstring) (glyphLines : list jsstring)
  : list jsstring * list jsstring :=
  match lines with
  | [] => (glyphLines, [])
  | glyphLine :: rest =>
      if JS.includes (JS.lit "@@") glyphLine
      then (glyphLines ++ [JS.replace (JS.lit "$@@") [] glyphLine], lines)
      else if JS.includes (JS.lit "$@") glyphLine
      then read_glyph rest (glyphLines ++ [JS.replace (JS.lit "$@") [] glyphLine])
      else read_glyph rest glyphLines
  end.

(** The loop over character entries. Every round moves the cursor forward,
    so [fuel] = number of lines is enough ([parse_entries_fuel]). *)
Fixpoint parse_entries (fuel : nat) (lines : list jsstring)
    (jisCharacterMap : gmap (list Z) (list Z)) : gmap (list Z) (list Z) :=
  match fuel with
  | O => jisCharacterMap
  | S fuel' =>
      match lines with
      | [] => jisCharacterMap
      | l :: rest =>
          match match_header (JS.trim l) with
          | Some (_decimalCode, hex) =>
              let hexCode := JS.toLowerCase hex in
              let '(glyphLines, cursor) := read_glyph rest [] in
              let jisCharacterMap' :=
                if (0 <? Z.of_nat (length glyphLines))
                then
                  let convertedGlyph :=
                    JS.join_nl (map (JS.replaceAll1 35 ink_literal) glyphLines) in
                  <[hexCode := convertedGlyph]> jisCharacterMap
                else jisCharacterMap in
              parse_entries fuel' (tail cursor) jisCharacterMap'
          | None => parse_entries fuel' rest jisCharacterMap
          end
      end
  end.

Definition parseJisFontData (fontData : jsstring)
    (jisCharacterMap : gmap (list Z) (list Z)) : gmap (list Z) (list Z) :=
  let lines := JS.split_nl fontData in
  parse_entries (length lines) (skip_header lines) jisCharacterMap.

(** The module-level state: the font text and the glyph map. *)
Record FontState : Type := {
  jisFontData : option (list Z);
  jisCharacterMap : gmap (list Z) (list Z)
}.

(** Module initialisation: [readFileSync] gives the font text or throws;
    the [catch] leaves the state as declared. *)
Definition loadFont (file : completion (list Z)) : FontState :=
  match file with
  | Normal data =>
      {| jisFontData := Some data; jisCharacterMap := parseJisFontData data ∅ |}
  | Throw _ => {| jisFontData := None; jisCharacterMap := ∅ |}
  end.

(** [jisCharacterMap.has(hexCode)] *)
Definition has (m : gmap (list Z) (list Z)) (hexCode : list Z) : bool :=
  match m !! hexCode with Some _ => true | None => false end.

(** [((b1 << 8) | b2).toString(16).toLowerCase().padStart(4, '0')] *)
Definition hexCodeOf (b1 b2 : Z) : jsstring :=
  JS.padStart (JS.toLowerCase (Num.toString16 (Num.bor (Num.shl b1 8) b2))) 4 48.

(** *** The shape of a legacy codepoint *)

Definition is_lower_hex_digit (u : Z) : bool :=
  is_digit u || ((97 <=? u) && (u <=? 102)).

(** A non-empty string of the digits 0-9 and a-f. *)
Definition is_lower_hex (s : list Z) : bool :=
  match s with
  | [] => false
  | _ :: _ => forallb is_lower_hex_digit s
  end.

(** The number a string of hexadecimal digits denotes, most significant
    digit first. *)
Definition digit_value (u : Z) : Z :=
  if is_digit u then u - 48
  else if (97 <=? u) && (u <=? 102) then u - 87
  else u - 55.

Fixpoint hex_value (s : list Z) : Z :=
  match s with
  | [] => 0
  | u :: rest => digit_value u * 16 ^ Z.of_nat (length rest) + hex_value rest
  end.

(** ** Placeholder Pattern Library: [getJapaneseCharPattern] *)

(** A row of a hand-drawn pattern, written with [#] for every occurrence
    of the ink literal. *)
Definition art (s : string) : jsstring :=
  JS.replaceAll1 35 ink_literal (JS.lit s).

(** The own properties of the [patterns] object literal. The keys are the
    strings the file holds: each is three code units long (the UTF-8 bytes
    of a kana or kanji read in the same code page as the ink literal). *)
Definition patterns_table : list (jsstring * list jsstring) :=
  [ ([0x201E; 0x0100; 0x0101],
      [art "  ########  ";
       art " #        # ";
       art "#   ####   #";
       art "#  #    #  #";
       art "#  # ####  #";
       art "#  # #  #  #";
       art "#  # ####  #";
       art "#          #";
       art " #        # ";
       art "  ########  "]);
    ([0x201E; 0x0100; 0x0104],
      [art "  ########  ";
       art " #        # ";
       art "#    ##    #";
       art "#    ##    #";
       art "#    ##    #";
       art "#  ######  #";
       art "#  ##  ##  #";
       art "#    ##    #";
       art " #        # ";
       art "  ########  "]);
    ([0x201E; 0x0100; 0x00DC],
      [art "  ########  ";
       art " #        # ";
       art "#  ######  #";
       art "#    ##    #";
       art "#    ##    #";
       art "#  ######  #";
       art "#  ##  ##  #";
       art "#  ######  #";
       art " #        # ";
       art "  ########  "]);
    ([0x201E; 0x0100; 0x0105],
      [art "  ########  ";
       art " #        # ";
       art "# ######## #";
       art "# ##    ## #";
       art "# ######## #";
       art "# ##    ## #";
       art "# ######## #";
       art "#          #";
       art " #        # ";
       art "  ########  "]);
    ([0x201E; 0x0100; 0x00E4],
      [art "  ########  ";
       art " #        # ";
       art "# ###### # #";
       art "# ##  ## # #";
       art "# ###### # #";
       art "# ##     # #";
       art "# ######## #";
       art "#          #";
       art " #        # ";
       art "  ########  "]);
    ([0x201E; 0x0100; 0x010F],
      [art "  ########  ";
       art " #        # ";
       art "# ######## #";
       art "#          #";
       art "#   ####   #";
       art "#          #";
       art "# ######## #";
       art "#          #";
       art " #        # ";
       art "  ########  "]);
    ([0x201E; 0x0101; 0x010F],
      [art "  ########  ";
       art " #        # ";
       art "#   ####   #";
       art "#  #    #  #";
       art "#  #    #  #";
       art "#  # ## #  #";
       art "#   ####   #";
       art "#    ##    #";
       art " #        # ";
       art "  ########  "]);
    ([0x201E; 0x0100; 0x0119],
      [art "  ########  ";
       art " #        # ";
       art "#    ##    #";
       art "#    ##    #";
       art "# ######## #";
       art "#    ##    #";
       art "#  ######  #";
       art "#          #";
       art " #        # ";
       art "  ########  "]);
    ([0x201E; 0x0100; 0x00B0],
      [art "  ########  ";
       art " #        # ";
       art "#  ######  #";
       art "#     ##   #";
       art "#     ##   #";
       art "#   ###### #";
       art "#     ##   #";
       art "#   ###### #";
       art " #        # ";
       art "  ########  "]);
    ([0x201E; 0x0100; 0x012E],
      [art "  ########  ";
       art " #        # ";
       art "# ##  ##   #";
       art "# ##  ##   #";
       art "# ######## #";
       art "# ##  ##   #";
       art "# ##  #### #";
       art "# ##    ## #";
       art " #        # ";
       art "  ########  "]);
    ([0x0161; 0x0142; 0x0116],
      [art "  ########  ";
       art " #        # ";
       art "#  #####   #";
       art "#  #   #   #";
       art "# #######  #";
       art "#  #   #   #";
       art "#  #   #   #";
       art "# ######## #";
       art " #        # ";
       art "  ########  "]);
    ([0x00C1; 0x0113; 0x0106],
      [art "  ########  ";
       art " #        # ";
       art "# ######## #";
       art "# #  ##  # #";
       art "# #  ##  # #";
       art "# ######## #";
       art "#    ##    #";
       art "# ######## #";
       art " #        # ";
       art "  ########  "]);
    ([0x015B; 0x00F3; 0x2022],
      [art "  ########  ";
       art " #        # ";
       art "# ######## #";
       art "# ##    ## #";
       art "# ######## #";
       art "# ##    ## #";
       art "# ######## #";
       art "#          #";
       art " #        # ";
       art "  ########  "]);
    ([0x015B; 0x00FA; 0x00A8],
      [art "  ########  ";
       art " #        # ";
       art "#    ##    #";
       art "#    ##    #";
       art "# ######## #";
       art "#    ##    #";
       art "#   ####   #";
       art "#  ##  ##  #";
       art " #        # ";
       art "  ########  "]);
    ([0x0164; 0x2122; 0x011B],
      [art "  ########  ";
       art " #        # ";
       art "# ## ## ## #";
       art "# ## ## ## #";
       art "# ######## #";
       art "# ##    ## #";
       art "# ######## #";
       art "# ##    ## #";
       art " #        # ";
       art "  ########  "]);
    ([0x201E; 0x0100; 0x0123],
      [art "  ########  ";
       art " #        # ";
       art "#   ####   #";
       art "#  #    #  #";
       art "#  # ## #  #";
       art "#  # ## #  #";
       art "#   ####   #";
       art "#          #";
       art " #        # ";
       art "  ########  "]);
    ([0x201E; 0x00C9; 0x00DC],
      [art "  ########  ";
       art " #        # ";
       art "# ######## #";
       art "#    ##    #";
       art "#    ##    #";
       art "#    ##    #";
       art "#    ##    #";
       art "#    ##    #";
       art " #        # ";
       art "  ########  "]);
    ([0x201E; 0x0101; 0x013B],
      [art "  ########  ";
       art " #        # ";
       art "#  ######  #";
       art "#     ##   #";
       art "#    ##    #";
       art "#   ##     #";
       art "#  ##      #";
       art "# ######   #";
       art " #        # ";
       art "  ########  "]);
    ([0x201E; 0x00C9; 0x0105],
      [art "  ########  ";
       art " #        # ";
       art "#   ####   #";
       art "#    ##    #";
       art "#    ##    #";
       art "#    ##    #";
       art "#    ##    #";
       art "#   ####   #";
       art " #        # ";
       art "  ########  "]) ].

(** The own property [key] of an object literal, if it has one. *)
Fixpoint lookup_pattern {A : Type} (table : list (jsstring * A)) (char : jsstring)
  : option A :=
  match table with
  | [] => None
  | (key, value) :: rest =>
      if decide (key = char) then Some value else lookup_pattern rest char
  end.

(** The members an object literal inherits from [Object.prototype], each
    with its [length] property: the number of parameters of the function,
    and none for [__proto__], whose value is the prototype object itself.
    All these values are truthy, and none has a [join] method or a
    property named by an array index. *)
Definition object_prototype_members : list (jsstring * option Z) :=
  [ (JS.lit "constructor", Some 1);
    (JS.lit "__defineGetter__", Some 2);
    (JS.lit "__defineSetter__", Some 2);
    (JS.lit "hasOwnProperty", Some 1);
    (JS.lit "__lookupGetter__", Some 1);
    (JS.lit "__lookupSetter__", Some 1);
    (JS.lit "isPrototypeOf", Some 1);
    (JS.lit "propertyIsEnumerable", Some 1);
    (JS.lit "toString", Some 0);
    (JS.lit "valueOf", Some 0);
    (JS.lit "__proto__", None);
    (JS.lit "toLocaleString", Some 0) ].

(** What [getJapaneseCharPattern] returns: an array of rows, or, when
    [char] names an inherited member, that member (of which only the
    [length] matters to the callers). *)
Inductive PatternValue : Type :=
  | Pattern (rows : list jsstring)
  | Member (len : option Z).

(** The array literal of the last [return]. *)
Definition generic_pattern (char : jsstring) : list jsstring :=
  [art "  ########  ";
   art " #        # ";
   art "#   ####   #";
   art "#  #    #  #";
   art "#  # " ++ char ++ art "  #  #";
   art "#  #    #  #";
   art "#   ####   #";
   art "#          #";
   art " #        # ";
   art "  ########  "].

(** [if (patterns[char]) return patterns[char];] then the generic
    pattern. An own property is looked up before an inherited one; every
    value of either kind is truthy. *)
Definition getJapaneseCharPattern (char : jsstring) : PatternValue :=
  match lookup_pattern patterns_table char with
  | Some rows => Pattern rows
  | None =>
      match lookup_pattern object_prototype_members char with
      | Some len => Member len
      | None =>
          (* Generic pattern for unknown characters *)
          Pattern (generic_pattern char)
      end
  end.

(** [pattern.length] as the bound of [row < height]: a comparison with
    [undefined] is false, so the loop body never runs then. *)
Definition pattern_height (pattern : PatternValue) : nat :=
  match pattern with
  | Pattern rows => length rows
  | Member (Some n) => Z.to_nat n
  | Member None => 0
  end.

(** [line += pattern[row]]: a missing row, or any index of a member of
    [Object.prototype], is [undefined] and is appended as that word. *)
Definition pattern_row (pattern : PatternValue) (row : nat) : jsstring :=
  match pattern with
  | Pattern rows => default (JS.lit "undefined") (rows !! row)
  | Member _ => JS.lit "undefined"
  end.

(** [pattern.join('\n')]: calling the missing method of a member of
    [Object.prototype] throws. *)
Definition pattern_join (pattern : PatternValue) : completion jsstring :=
  match pattern with
  | Pattern rows => Normal (JS.join_nl rows)
  | Member _ => Throw TypeError
  end.

(** ** Glyph Compositor *)

(** The inner loop of both compositors: [line += cell] for every glyph,
    and [line += ' '] after every glyph but the last. *)
Fixpoint append_cells (cells : list jsstring) (line : jsstring) : jsstring :=
  match cells with
  | [] => line
  | cell :: rest =>
      let line := line ++ cell in
      let line := if bool_decide (rest = []) then line else line ++ [32] in
      append_cells rest line
  end.

(** [createJapaneseArt]: the height is the row count of the FIRST pattern;
    reading [allPatterns[0].length] of an empty array throws; a row a
    later pattern lacks would be appended as the text [undefined]. *)
Definition createJapaneseArt (text : jsstring) : completion (list jsstring) :=
  let chars := JS.Array_from text in
  let allPatterns := map getJapaneseCharPattern chars in
  match allPatterns with
  | [] => Throw TypeError
  | first :: _ =>
      let height := pattern_height first in
      Normal
        (map (fun row =>
                append_cells
                  (map (fun pattern => pattern_row pattern row) allPatterns)
                  [])
             (seq 0 height))
  end.

(** [Math.max(...charLines.map(lines => lines.length))] of a non-empty
    array. *)
Definition maxHeightOf (charLines : list (list jsstring)) : nat :=
  max_list (map length charLines).

(** The combination loop of [renderJapaneseWithJisFont]:
    [charLines[i][row] || ''] gives the empty string for a missing row. *)
Definition combineLines (charLines : list (list jsstring)) : list jsstring :=
  let maxHeight := maxHeightOf charLines in
  map (fun row =>
         append_cells
           (map (fun lines : list (list Z) => default [] (lines !! row)) charLines)
           [])
      (seq 0 maxHeight).

(** A block of rows is rectangular when its rows all have the length of
    the first one. *)
Definition rectangular (rows : list (list Z)) : bool :=
  match rows with
  | [] => true
  | r :: rest => forallb (fun r' => (length r' =? length r)%nat) rest
  end.

(** ** JavaScript numbers (IEEE 754 binary64) for the diagonal shift *)

Module Double.

(** An integer as a number; exact below [2^53]. *)
Definition of_Z (z : Z) : float :=
  if z <? 0 then PrimFloat.opp (PrimFloat.of_uint63 (Uint63.of_Z (- z)))
  else PrimFloat.of_uint63 (Uint63.of_Z z).

(** [Math.floor(x)] of a finite number, as an integer; [None] for NaN and
    the infinities. *)
Definition floor (x : float) : option Z :=
  match Prim2SF x with
  | S754_zero _ => Some 0
  | S754_finite false m e => Some (Z.shiftl (Z.pos m) e)
  | S754_finite true m e => Some (Z.shiftl (Z.neg m) e)
  | _ => None
  end.

End Double.

(** ** Truthiness of [string | null] *)

Definition truthy (s : option (list Z)) : bool :=
  match s with
  | Some (_ :: _) => true
  | _ => false
  end.

(** ** The renderer, over the external libraries *)

(** What [gradient(colors)] returns: a function on one line, with a
    [multiline] method on a block. *)
Record GradientFn : Type := {
  applyLine : list Z -> list Z;
  multiline : list Z -> list Z
}.

Section Renderer.

(** [jconv.encode(char, encoding)]: a Buffer, or an exception. *)
Variable jconv_encode : list Z -> list Z -> completion (option (list Z)).
(** [Encoding.convert(codes, {to: encoding, from: 'UNICODE'})] *)
Variable Encoding_convert : list Z -> list Z -> completion (option (list Z)).
(** [gradient(colors)]; an entry [None] is [undefined]. *)
Variable gradient : list (option (list Z)) -> completion GradientFn.
(** The font state after module initialisation. *)
Variable st : FontState.

(** A candidate counts only if it is a key of the glyph map. *)
Definition stored (candidate : option (list Z)) : option (list Z) :=
  match candidate with
  | Some hexCode => if has (jisCharacterMap st) hexCode then Some hexCode else None
  | None => None
  end.

(** [jisBytes && jisBytes.length >= 5], then bytes 3 and 4. *)
Definition jis_candidate (jisBytes : option (list Z)) : option (list Z) :=
  match jisBytes with
  | Some (_ :: _ :: _ :: charByte1 :: charByte2 :: _) =>
      Some (hexCodeOf charByte1 charByte2)
  | _ => None
  end.

(** [bytes && bytes.length >= 2], then bytes 0 and 1. *)
Definition pair_candidate (bytes : option (list Z)) : option (list Z) :=
  match bytes with
  | Some (b0 :: b1 :: _) => Some (hexCodeOf b0 b1)
  | _ => None
  end.

(** [for (const encoding of conversions) { try { ... } catch (e) { } }] *)
Fixpoint try_conversions (codes : list Z) (conversions : list (list Z))
  : option (list Z) :=
  match conversions with
  | [] => None
  | encoding :: rest =>
      match
        try_catch
          (convertedArray ← Encoding_convert codes encoding;
           Normal (stored (pair_candidate convertedArray)))
          (fun _e => Normal None)
      with
      | Normal (Some hexCode) => Some hexCode
      | _ => try_conversions codes rest
      end
  end.

Definition unicodeToJisHexCode (char : list Z) : completion (option (list Z)) :=
  try_catch
    (jisBytes ← jconv_encode char (JS.lit "JIS");
     match stored (jis_candidate jisBytes) with
     | Some hexCode => Normal (Some hexCode)
     | None =>
         sjisBytes ← jconv_encode char (JS.lit "SJIS");
         match stored (pair_candidate sjisBytes) with
         | Some hexCode => Normal (Some hexCode)
         | None =>
             let codes := char in
             Normal (try_conversions codes [JS.lit "JISX0208"; JS.lit "SJIS"])
         end
     end)
    (fun _error => Normal None).

(** *** The resolution chain, as the specification words it

    An ordered list of schemes; an error of one scheme is a miss of that
    scheme only; the first candidate that is a key of the glyph map
    wins. *)
Definition miss_on_error (c : completion (option (list Z))) : option (list Z) :=
  match c with
  | Normal bytes => bytes
  | Throw _ => None
  end.

Definition scheme_candidates (char : list Z) : list (option (list Z)) :=
  [ jis_candidate (miss_on_error (jconv_encode char (JS.lit "JIS")));
    pair_candidate (miss_on_error (jconv_encode char (JS.lit "SJIS")));
    pair_candidate (miss_on_error (Encoding_convert char (JS.lit "JISX0208")));
    pair_candidate (miss_on_error (Encoding_convert char (JS.lit "SJIS"))) ].

Fixpoint first_hit (candidates : list (option (list Z))) : option (list Z) :=
  match candidates with
  | [] => None
  | candidate :: rest =>
      match stored candidate with
      | Some hexCode => Some hexCode
      | None => first_hit rest
      end
  end.

Definition resolve_chain (char : list Z) : option (list Z) :=
  first_hit (scheme_candidates char).

(** [!jisFontData || jisCharacterMap.size === 0] *)
Definition no_font : bool :=
  negb (truthy (jisFontData st)) || (size (jisCharacterMap st) =? 0)%nat.

Definition renderJisCharacter (char : list Z) : completion (option (list Z)) :=
  if no_font then Normal None
  else
    try_catch
      (jisHexCode ← unicodeToJisHexCode char;
       match jisHexCode with
       | Some ((_ :: _) as hexCode) =>
           let glyphData := jisCharacterMap st !! hexCode in
           if truthy glyphData then Normal glyphData else Normal None
       | _ => Normal None
       end)
      (fun _error => Normal None).

Definition renderJapaneseWithJisFont (text : list Z) : completion (option (list Z)) :=
  if no_font then Normal None
  else
    let chars := JS.Array_from text in
    renderedChars ←
      mapM (fun char =>
              result ← renderJisCharacter char;
              if truthy result then Normal (default [] result)
              else
                (* Fallback to pattern for unknown characters *)
                pattern_join (getJapaneseCharPattern char))
           chars;
    match renderedChars with
    | [] => Normal None
    | [only] => Normal (Some only)
    | _ =>
        let charLines := map JS.split_nl renderedChars in
        Normal (Some (JS.join_nl (combineLines charLines)))
    end.

(** The palette a row of the diagonal mode is coloured with:
    [palette.map((_, colorIndex) => { const shift = (index / lineCount) *
    palette.length; return palette[Math.floor(colorIndex + shift) %
    palette.length]; })], in double arithmetic. *)
Definition shiftedIndex (paletteLength index lineCount colorIndex : Z) : option Z :=
  let shift :=
    PrimFloat.mul (PrimFloat.div (Double.of_Z index) (Double.of_Z lineCount))
                  (Double.of_Z paletteLength) in
  match Double.floor (PrimFloat.add (Double.of_Z colorIndex) shift) with
  | Some k => Some (Z.rem k paletteLength)
  | None => None
  end.

Definition shiftedPalette (palette : list (list Z)) (index lineCount : Z)
  : list (option (list Z)) :=
  imap (fun colorIndex _ =>
          match shiftedIndex (Z.of_nat (length palette)) index lineCount
                             (Z.of_nat colorIndex) with
          | Some k => if k <? 0 then None else palette !! Z.to_nat k
          | None => None
          end)
       palette.

(** The three branches of the [switch (direction)]. *)
Definition colorizeHorizontal (gradientFn : GradientFn) (asciiArt : list Z)
  : list (list Z) :=
  let lines := JS.split_nl asciiArt in
  map (fun line => if JS.is_blank line then line else applyLine gradientFn line)
      lines.

Definition colorizeDiagonal (palette : list (list Z)) (asciiArt : list Z)
  : completion (list (list Z)) :=
  let diagonalLines := JS.split_nl asciiArt in
  let lineCount := Z.of_nat (length diagonalLines) in
  mapM (fun '(index, line) =>
          if JS.is_blank line then Normal line
          else
            g ← gradient (shiftedPalette palette (Z.of_nat index) lineCount);
            Normal (applyLine g line))
       (imap pair diagonalLines).

Definition colorize (asciiArt : list Z) (palette : list (list Z))
    (direction : list Z) : completion (list Z) :=
  gradientFn ← gradient (map Some palette);
  if decide (direction = JS.lit "horizontal")
  then Normal (JS.join_nl (colorizeHorizontal gradientFn asciiArt))
  else if decide (direction = JS.lit "diagonal")
  then
    coloredLines ← colorizeDiagonal palette asciiArt;
    Normal (JS.join_nl coloredLines)
  else Normal (multiline gradientFn asciiArt).

Definition renderJapaneseText (text : list Z) (palette : list (list Z))
    (direction : list Z) : completion (list Z) :=
  (* Try JIS figlet font first *)
  asciiArt ← renderJapaneseWithJisFont text;
  asciiArt ←
    (if truthy asciiArt then Normal (default [] asciiArt)
     else
       (* Fallback to custom patterns *)
       artLines ← createJapaneseArt text;
       Normal (JS.join_nl artLines));
  (* Apply gradient coloring *)
  colorize asciiArt palette direction.

End Renderer.

(** ** Per-character block mode: [createJapaneseBlock] *)

Section InkLogo.

(** [stringWidth(char)] of the string-width package: the number of
    terminal columns. *)
Variable stringWidth : list Z -> Z.

Definition scale : Z := 5.

(** [lines[row] += s] *)
Definition append_to (lines : list (list Z)) (row : nat) (s : list Z)
  : list (list Z) :=
  alter (fun l => l ++ s) row lines.

(** [stringWidth(char) || 1] *)
Definition charWidthOf (char : list Z) : Z :=
  let w := stringWidth char in if w =? 0 then 1 else w.

(** [Math.max(charWidth * 3, 6)] *)
Definition blockWidthOf (char : list Z) : Z := Z.max (charWidthOf char * 3) 6.

(** The body of the loop over the characters: the loop over the rows.
    [more] is [i < chars.length - 1]. *)
Definition block_rows (char : list Z) (more : bool) (lines : list (list Z))
  : list (list Z) :=
  let charWidth := charWidthOf char in
  let blockWidth := blockWidthOf char in
  fold_left
    (fun lines row =>
       let lines :=
         if (Z.of_nat row =? 0) || (Z.of_nat row =? scale - 1)
         then
           (* Top and bottom borders *)
           append_to lines row (JS.repeat [ink] blockWidth)
         else if Z.of_nat row =? scale / 2
         then
           (* Middle row with character *)
           let padding := Z.max 0 (blockWidth - charWidth) in
           let leftPad := padding / 2 in
           let rightPad := padding - leftPad in
           append_to lines row
             (JS.repeat [ink] leftPad ++ char ++ JS.repeat [ink] rightPad)
         else
           (* Side borders *)
           append_to lines row ([ink] ++ JS.repeat [32] (blockWidth - 2) ++ [ink])
       in
       (* Add spacing between characters *)
       if more then append_to lines row [32; 32] else lines)
    (seq 0 (Z.to_nat scale))
    lines.

Fixpoint block_loop (chars : list (list Z)) (lines : list (list Z))
  : list (list Z) :=
  match chars with
  | [] => lines
  | char :: rest =>
      block_loop rest (block_rows char (negb (bool_decide (rest = []))) lines)
  end.

(** The rows before [lines.join('\n')]. *)
Definition createJapaneseBlock_lines (text : list Z) : list (list Z) :=
  let chars := JS.Array_from text in
  let lines := replicate (Z.to_nat scale) [] in
  block_loop chars lines.

Definition createJapaneseBlock (text : list Z) : list Z :=
  JS.join_nl (createJapaneseBlock_lines text).

(** *** The block of one character, as the specification describes it *)

(** The padding of the middle row around the character. *)
Definition paddingOf (char : list Z) : Z :=
  Z.max 0 (blockWidthOf char - charWidthOf char).

(** Row [row] of the block of [char]. *)
Definition block_cell (row : nat) (char : list Z) : list Z :=
  match row with
  | 0%nat | 4%nat => List.repeat ink (Z.to_nat (blockWidthOf char))
  | 2%nat =>
      List.repeat ink (Z.to_nat (paddingOf char / 2))
      ++ char
      ++ List.repeat ink (Z.to_nat (paddingOf char - paddingOf char / 2))
  | _ =>
      [ink] ++ List.repeat 32 (Z.to_nat (blockWidthOf char - 2)) ++ [ink]
  end.

End InkLogo.

(** A stand-in for string-width on the characters of the examples below:
    two columns for the East Asian wide ranges (Hiragana, Katakana, CJK
    ideographs, CJK extension B and emoji in the supplementary planes),
    one column for everything else. *)
Definition sample_stringWidth (char : list Z) : Z :=
  let cp := JS.codePoint char in
  if ((0x3040 <=? cp) && (cp <=? 0x30FF)) || ((0x4E00 <=? cp) && (cp <=? 0x9FFF))
     || ((0x1F300 <=? cp) && (cp <=? 0x1F64F)) || ((0x20000 <=? cp) && (cp <=? 0x3FFFD))
  then 2 else 1.


(** ** Sample collaborators for the examples *)

(** A font resource with two entries: the header lines, then for each
    entry a line [<decimal> <hex>] and its glyph rows. *)
Definition sample_fontData : list Z :=
  JS.join_nl
    [ JS.lit "flf2a$ 2 2 4 0 1";
      JS.lit "sample";
      JS.lit "9250 2422";
      JS.lit " ##$@";
      JS.lit "#  #$@@";
      JS.lit "33440 82A0";
      JS.lit "####$@";
      JS.lit "#  #$@@" ].

Definition sample_font : FontState := loadFont (Normal sample_fontData).

(** jconv on HIRAGANA LETTER A: ESC $ B 24 22 ESC ( B under JIS, 82 A0
    under SJIS; an ASCII character encodes as itself. *)
Definition sample_jconv (char encoding : list Z) : completion (option (list Z)) :=
  if decide (char = [0x3042])
  then
    if decide (encoding = JS.lit "JIS")
    then Normal (Some [0x1B; 0x24; 0x42; 0x24; 0x22; 0x1B; 0x28; 0x42])
    else Normal (Some [0x82; 0xA0])
  else Normal (Some char).

(** A jconv whose JIS encoder raises. *)
Definition failing_jconv (char encoding : list Z) : completion (option (list Z)) :=
  if decide (encoding = JS.lit "JIS")
  then Throw (LibraryError 1)
  else sample_jconv char encoding.

(** An encoding-japanese that converts nothing. *)
Definition sample_Encoding (codes encoding : list Z) : completion (option (list Z)) :=
  Normal (Some []).

(** A colorizer in the manner of gradient-string, with one escape
    character standing for the colour sequence put before a coloured
    character: on a single line white space is left alone; [multiline]
    colours every character of every line. It rejects palettes of fewer
    than two colours. *)
Definition sample_gradient (colors : list (option (list Z))) : completion GradientFn :=
  if (length colors <? 2)%nat then Throw (LibraryError 2)
  else
    Normal
      {| applyLine :=
           flat_map (fun u => if JS.is_whitespace u then [u] else [27; u]);
         multiline :=
           flat_map (fun u => if u =? 10 then [u] else [27; u]) |}.

(** The state when the font file could not be read. *)
Definition no_font_state : FontState := loadFont (Throw (LibraryError 0)).

(** A text of twelve line feeds: without a font its canvas has 22 rows,
    the placeholder's middle row being cut in 13 by the embedded
    characters. *)
Definition twelve_newlines : list Z := List.repeat 10 12.

(** The colours #000, #001, ..., #021. *)
Definition sample_palette22 : list (list Z) :=
  map (fun i => [35; 48; 48 + Z.of_nat (i / 10); 48 + Z.of_nat (i mod 10)])
      (seq 0 22).

(** ** Checking the diagonal shift over a range of sizes *)

(** The shifted index is the rotated one, [(c + floor(i*L/n)) mod L]. *)
Definition shift_exact (L n i c : Z) : bool :=
  match shiftedIndex L i n c with
  | Some k => k =? (c + i * L / n) mod L
  | None => false
  end.

(** ... for all palettes of 1..[Lmax] colours, canvases of 1..[nmax] rows,
    rows [i < n] and colour indices [c < L]. *)
Definition shift_exact_upto (Lmax nmax : nat) : bool :=
  forallb (fun L =>
    forallb (fun n =>
      forallb (fun i =>
        forallb (fun c =>
                   shift_exact (Z.of_nat L) (Z.of_nat n) (Z.of_nat i) (Z.of_nat c))
                (seq 0 L))
        (seq 0 n))
      (seq 1 nmax))
    (seq 1 Lmax).

(** ** Further notions used by the properties below *)

(** The number of line feeds in a string. *)
Definition count_lf (s : list Z) : nat := count_occ Z.eq_dec s 10.

(** A row holds no line feed: [split('\n')] leaves it whole. *)
Definition no_lf (s : list Z) : Prop := ~ In 10 s.

(** The total length of the cells of one canvas row. *)
Definition cells_length (cells : list (list Z)) : nat :=
  list_sum (map length cells).

(** A code unit of the ink literal, or a blank. *)
Definition is_cell (u : Z) : bool := existsb (Z.eqb u) ink_literal || (u =? 32).

(** The cell a character of a text contributes to row [row] of the
    fallback canvas: the row of its generic pattern. *)
Definition pattern_cell (row : nat) (char : list Z) : list Z :=
  default [] (generic_pattern char !! row).

(** The widths, in code units, of the rows of the generic pattern of a
    character of one code unit. *)
Definition generic_widths : list nat := [28; 16; 24; 20; 20; 20; 24; 16; 16; 28]%nat.

(** Sums over the characters of a text, for the block builder. *)
Definition sum_Z (l : list Z) : Z := fold_right Z.add 0 l.

(** A font file that gives no usable store: it could not be read, or no
    line of it has the shape of a table header. *)
Definition unusable_font (file : completion (list Z)) : Prop :=
  match file with
  | Throw _ => True
  | Normal data =>
      Forall (fun line => match_header line = None) (JS.split_nl data)
  end.

(** ** A well-formed font resource *)

(** One entry of the character table: the two fields of its header line,
    its glyph rows but the last, and its last row, all without their
    markers. *)
Record FontEntry : Type := {
  entry_decimal : list Z;
  entry_hex : list Z;
  entry_rows : list (list Z);
  entry_last : list Z
}.

(** A glyph row that holds neither the marker character [@] nor a line
    feed. *)
Definition plain_row (row : list Z) : bool :=
  forallb (fun u => negb (u =? 64) && negb (u =? 10)) row.

Definition well_formed_entry (e : FontEntry) : bool :=
  match entry_decimal e, entry_hex e with
  | _ :: _, _ :: _ =>
      forallb is_digit (entry_decimal e)
      && forallb is_hex_digit (entry_hex e)
      && forallb plain_row (entry_rows e)
      && plain_row (entry_last e)
  | _, _ => false
  end.

(** The lines of an entry in the font file: [<decimal> <hex>], the rows
    ending in [$@], the last row ending in [$@@]. *)
Definition entry_lines (e : FontEntry) : list (list Z) :=
  (entry_decimal e ++ [32] ++ entry_hex e)
  :: map (fun row => row ++ JS.lit "$@") (entry_rows e)
  ++ [entry_last e ++ JS.lit "$@@"].

(** The glyph the store keeps for an entry. *)
Definition entry_glyph (e : FontEntry) : list Z :=
  JS.join_nl (map (JS.replaceAll1 35 ink_literal) (entry_rows e ++ [entry_last e])).

Definition store_entry (m : gmap (list Z) (list Z)) (e : FontEntry)
  : gmap (list Z) (list Z) :=
  <[JS.toLowerCase (entry_hex e) := entry_glyph e]> m.

(** A conversion library whose results are byte arrays. *)
Definition gives_bytes (convert : list Z -> list Z -> completion (option (list Z)))
  : Prop :=
  forall (input encoding bytes : list Z),
    convert input encoding = Normal (Some bytes) ->
    Forall (fun b => 0 <= b < 256) bytes.

(** A jconv that answers bytes for every input: HIRAGANA LETTER A as
    jconv encodes it, any other character by the low byte of each unit. *)
Definition byte_jconv (char encoding : list Z) : completion (option (list Z)) :=
  if decide (char = [0x3042])
  then
    if decide (encoding = JS.lit "JIS")
    then Normal (Some [0x1B; 0x24; 0x42; 0x24; 0x22; 0x1B; 0x28; 0x42])
    else Normal (Some [0x82; 0xA0])
  else Normal (Some (map (fun u => u mod 256) char)).
(** * Properties *)

(** ** Code points of a string *)

(** Induction over a string the way the string iterator consumes it: one
    code unit, or a surrogate pair, at a time. *)
Lemma Array_from_ind (P : list Z -> Prop) :
  P [] ->
  (forall u, P [u]) ->
  (forall u v rest,
      JS.is_high_surrogate u && JS.is_low_surrogate v = true ->
      P rest -> P (u :: v :: rest)) ->
  (forall u v rest,
      JS.is_high_surrogate u && JS.is_low_surrogate v = false ->
      P (v :: rest) -> P (u :: v :: rest)) ->
  forall text, P text.
Proof.
  intros Hnil Hone Hpair Hsingle text.
  assert (H : forall n (t : list Z), (length t <= n)%nat -> P t).
  { induction n as [|n IH]; intros t Hlen.
    - destruct t; [exact Hnil | simpl in Hlen; lia].
    - destruct t as [|u [|v rest]]; [exact Hnil | apply Hone |].
      destruct (JS.is_high_surrogate u && JS.is_low_surrogate v) eqn:E.
      + apply Hpair; [exact E |]. apply IH. simpl in Hlen. lia.
      + apply Hsingle; [exact E |]. apply IH. simpl in Hlen |- *. lia. }
  apply (H (length text)). lia.
Qed.

Lemma Array_from_pair u v rest :
  JS.is_high_surrogate u && JS.is_low_surrogate v = true ->
  JS.Array_from (u :: v :: rest) = [u; v] :: JS.Array_from rest.
Proof. intros E. simpl. rewrite E. reflexivity. Qed.

Lemma Array_from_single u v rest :
  JS.is_high_surrogate u && JS.is_low_surrogate v = false ->
  JS.Array_from (u :: v :: rest) = [u] :: JS.Array_from (v :: rest).
Proof. intros E. simpl. rewrite E. reflexivity. Qed.

(** The elements of [Array.from(text)] concatenate back to [text]. *)
Lemma Array_from_concat text : concat (JS.Array_from text) = text.
Proof.
  induction text as [| u | u v rest E IH | u v rest E IH] using Array_from_ind.
  - reflexivity.
  - reflexivity.
  - rewrite Array_from_pair by exact E. simpl. rewrite IH. reflexivity.
  - rewrite Array_from_single by exact E.
    change (concat ([u] :: JS.Array_from (v :: rest)))
      with (u :: concat (JS.Array_from (v :: rest))).
    rewrite IH. reflexivity.
Qed.

Lemma Array_from_code_points text :
  Forall is_code_point (JS.Array_from text).
Proof.
  induction text as [| u | u v rest E IH | u v rest E IH] using Array_from_ind.
  - constructor.
  - constructor; [left; eauto | constructor].
  - rewrite Array_from_pair by exact E.
    constructor; [right; eauto | exact IH].
  - rewrite Array_from_single by exact E.
    constructor; [left; eauto | exact IH].
Qed.

Lemma in_japanese_range_bounds c :
  in_japanese_range c = true -> 0x3040 <= c <= 0x9FFF.
Proof. unfold in_japanese_range. lia. Qed.

Lemma in_japanese_range_false c :
  c < 0x3040 \/ 0x9FFF < c -> in_japanese_range c = false.
Proof.
  intros H. destruct (in_japanese_range c) eqn:E; [| reflexivity].
  apply in_japanese_range_bounds in E. lia.
Qed.

(** The test on the first code unit decides the range of the code point:
    a surrogate is in none of the three ranges, and neither is a
    supplementary-plane scalar. *)
Lemma first_unit_decides char :
  is_code_point char ->
  match char with
  | code :: _ => in_japanese_range code
  | [] => false
  end = in_japanese_range (JS.codePoint char).
Proof.
  intros [[u ->] | (u & v & -> & E)]; [reflexivity |].
  unfold JS.codePoint. rewrite E.
  apply andb_true_iff in E as [Hu Hv].
  unfold JS.is_high_surrogate in Hu. unfold JS.is_low_surrogate in Hv.
  rewrite (in_japanese_range_false u) by lia.
  rewrite in_japanese_range_false by lia.
  reflexivity.
Qed.

Lemma containsJapanese_iff text :
  containsJapanese text = true <->
  exists char, In char (JS.Array_from text) /\
               in_japanese_range (JS.codePoint char) = true.
Proof.
  unfold containsJapanese. rewrite existsb_exists.
  pose proof (Array_from_code_points text) as Hcp.
  rewrite Forall_forall in Hcp.
  split; intros (char & Hin & Hr); exists char; split; try exact Hin.
  - rewrite <- first_unit_decides; [exact Hr |].
    apply Hcp. apply list_elem_of_In. exact Hin.
  - rewrite first_unit_decides; [exact Hr |].
    apply Hcp. apply list_elem_of_In. exact Hin.
Qed.

Lemma containsJapanese_unit text :
  containsJapanese text = true ->
  exists u, In u text /\ in_japanese_range u = true.
Proof.
  unfold containsJapanese. rewrite existsb_exists.
  intros (char & Hin & Hr).
  destruct char as [|code tl]; [discriminate |].
  exists code. split; [| exact Hr].
  rewrite <- (Array_from_concat text).
  apply in_concat. exists (code :: tl). split; [exact Hin | left; reflexivity].
Qed.

(** C9. [containsJapanese(text)] is true exactly when some Unicode scalar
    of [text] (an element of [Array.from(text)], a surrogate pair counting
    as one) lies in Hiragana U+3040..U+309F, Katakana U+30A0..U+30FF or CJK
    Unified Ideographs U+4E00..U+9FFF; it is false for every string of
    ASCII/Latin code units and for the empty string. *)
Theorem containsJapanese_spec :
  forall text : list Z,
    (containsJapanese text = true <->
     exists char, In char (JS.Array_from text) /\
       let cp := JS.codePoint char in
       (0x3040 <= cp <= 0x309F) \/ (0x30A0 <= cp <= 0x30FF) \/
       (0x4E00 <= cp <= 0x9FFF))
    /\ (Forall is_latin text -> containsJapanese text = false)
    /\ containsJapanese [] = false.
Proof.
  intros text. split; [| split].
  - rewrite containsJapanese_iff.
    split; intros (char & Hin & Hr); exists char; (split; [exact Hin |]).
    + unfold in_japanese_range in Hr. simpl. lia.
    + unfold in_japanese_range. simpl in Hr. lia.
  - intros Hlat.
    destruct (containsJapanese text) eqn:E; [| reflexivity].
    apply containsJapanese_unit in E as (u & Hin & Hr).
    rewrite Forall_forall in Hlat.
    apply list_elem_of_In, Hlat in Hin. unfold is_latin in Hin.
    unfold in_japanese_range in Hr. lia.
  - reflexivity.
Qed.

(** The cases of the test suite. *)
Example containsJapanese_hello_sekai :
  containsJapanese (JS.lit "Hello" ++ [0x4E16; 0x754C]) = true.
Proof. reflexivity. Qed.

Example containsJapanese_katakana :
  containsJapanese [0x30AB; 0x30BF; 0x30AB; 0x30CA] = true.
Proof. reflexivity. Qed.

Example containsJapanese_ascii :
  containsJapanese (JS.lit "Hello World") = false.
Proof. reflexivity. Qed.

(** A supplementary-plane character is one element, and no Japanese one. *)
Example containsJapanese_emoji :
  JS.Array_from [0xD83D; 0xDE00] = [[0xD83D; 0xDE00]]
  /\ containsJapanese [0xD83D; 0xDE00] = false.
Proof. split; reflexivity. Qed.

(** ** Placeholder patterns *)

Lemma lookup_pattern_In {A : Type} (table : list (list Z * A)) char value :
  lookup_pattern table char = Some value -> In (char, value) table.
Proof.
  induction table as [|[key v] table IH]; simpl; [discriminate |].
  destruct (decide (key = char)) as [-> | _].
  - intros [= ->]. left. reflexivity.
  - intros H. right. apply IH, H.
Qed.

(** A string shorter than every key is no key. *)
Lemma lookup_pattern_short {A : Type} (table : list (list Z * A)) (n : nat) char :
  forallb (fun entry => (n <? length (fst entry))%nat) table = true ->
  (length char <= n)%nat ->
  lookup_pattern table char = None.
Proof.
  intros Hkeys Hlen. destruct (lookup_pattern table char) as [value |] eqn:E;
    [| reflexivity].
  apply lookup_pattern_In in E.
  rewrite forallb_forall in Hkeys. specialize (Hkeys _ E). simpl in Hkeys.
  apply Nat.ltb_lt in Hkeys. lia.
Qed.

Lemma is_code_point_length char : is_code_point char -> (length char <= 2)%nat.
Proof. intros [(u & ->) | (u & v & -> & _)]; simpl; lia. Qed.

(** Every key of the [patterns] literal is three code units long, and every
    name of a member of [Object.prototype] is longer; a character that
    [Array.from] yields is one or two units long. So for a character of a
    text the pattern is always the generic one, with the character in its
    middle row. *)
Lemma getJapaneseCharPattern_code_point char :
  is_code_point char ->
  lookup_pattern patterns_table char = None
  /\ getJapaneseCharPattern char = Pattern (generic_pattern char).
Proof.
  intros Hc. apply is_code_point_length in Hc.
  assert (Hown : lookup_pattern patterns_table char = None)
    by (apply (lookup_pattern_short _ 2); [reflexivity | exact Hc]).
  split; [exact Hown |].
  unfold getJapaneseCharPattern. rewrite Hown.
  rewrite (lookup_pattern_short object_prototype_members 2);
    [reflexivity | reflexivity | exact Hc].
Qed.

Lemma getJapaneseCharPattern_Array_from text char :
  In char (JS.Array_from text) ->
  getJapaneseCharPattern char = Pattern (generic_pattern char).
Proof.
  intros Hin. apply getJapaneseCharPattern_code_point.
  pose proof (Array_from_code_points text) as H. rewrite Forall_forall in H.
  apply H, list_elem_of_In, Hin.
Qed.

Lemma Array_from_patterns text :
  map getJapaneseCharPattern (JS.Array_from text)
  = map (fun char => Pattern (generic_pattern char)) (JS.Array_from text).
Proof. apply map_ext_in. intros char. apply getJapaneseCharPattern_Array_from. Qed.

(** For a non-empty text the fallback compositor returns its 10 rows. *)
Lemma createJapaneseArt_nonempty text :
  text <> [] ->
  exists artLines, createJapaneseArt text = Normal artLines
                   /\ length artLines = 10%nat.
Proof.
  intros Hne. unfold createJapaneseArt. rewrite Array_from_patterns.
  destruct (JS.Array_from text) as [|char chars] eqn:E.
  - exfalso. apply Hne. rewrite <- (Array_from_concat text), E. reflexivity.
  - cbn [map]. eexists. split; [reflexivity |].
    rewrite length_map, length_seq. reflexivity.
Qed.

(** ** Empty input *)

Lemma createJapaneseArt_empty : createJapaneseArt [] = Throw TypeError.
Proof. reflexivity. Qed.

Lemma renderJapaneseWithJisFont_empty jconv_encode Encoding_convert st :
  renderJapaneseWithJisFont jconv_encode Encoding_convert st [] = Normal None.
Proof.
  unfold renderJapaneseWithJisFont. destruct (no_font st); reflexivity.
Qed.

(** C1 (the code departs from the claim). Rendering the empty string never
    reaches the colorizer: the font path yields no art, the fallback
    [createJapaneseArt] reads [allPatterns[0].length] of an empty array, and
    the [TypeError] propagates out of [renderJapaneseText], whatever the
    font, the palette and the direction. *)
Theorem renderJapaneseText_empty_throws :
  forall jconv_encode Encoding_convert gradient st palette direction,
    createJapaneseArt [] = Throw TypeError /\
    renderJapaneseText jconv_encode Encoding_convert gradient st [] palette direction
    = Throw TypeError.
Proof.
  intros. split; [reflexivity |].
  unfold renderJapaneseText.
  rewrite renderJapaneseWithJisFont_empty. reflexivity.
Qed.

(** ** The 32-bit operators on bytes *)

Lemma ToInt32_small x : 0 <= x < 2 ^ 31 -> Num.ToInt32 x = x.
Proof.
  intros H. unfold Num.ToInt32.
  rewrite Z.mod_small by lia.
  destruct (Z.ltb_spec x (2 ^ 31)); [reflexivity | lia].
Qed.

Lemma land_shiftl_low a b n :
  0 <= n -> 0 <= b < 2 ^ n -> Z.land (Z.shiftl a n) b = 0.
Proof.
  intros Hn Hb. apply Z.bits_inj'. intros m Hm.
  rewrite Z.land_spec, Z.bits_0.
  destruct (Z.lt_ge_cases m n) as [Hlt | Hge].
  - rewrite Z.shiftl_spec_low by exact Hlt. reflexivity.
  - assert (Hbit : Z.testbit b m = false).
    { destruct (Z.eq_dec b 0) as [-> | Hne]; [apply Z.bits_0 |].
      apply Z.bits_above_log2; [lia |].
      apply Z.lt_le_trans with n; [| exact Hge].
      apply Z.log2_lt_pow2; lia. }
    rewrite Hbit. apply andb_false_r.
Qed.

(** Two bytes combine big-endian. *)
Lemma combine_bytes b1 b2 :
  0 <= b1 < 256 -> 0 <= b2 < 256 ->
  Num.bor (Num.shl b1 8) b2 = 256 * b1 + b2.
Proof.
  intros H1 H2. unfold Num.bor, Num.shl.
  change (8 mod 32) with 8.
  rewrite (ToInt32_small b1) by lia.
  assert (Hsh : Z.shiftl b1 8 = 256 * b1).
  { rewrite Z.shiftl_mul_pow2 by lia. change (2 ^ 8) with 256. lia. }
  rewrite (ToInt32_small (Z.shiftl b1 8)) by (rewrite Hsh; lia).
  rewrite (ToInt32_small (Z.shiftl b1 8)) by (rewrite Hsh; lia).
  rewrite (ToInt32_small b2) by lia.
  assert (Hland : Z.land (Z.shiftl b1 8) b2 = 0)
    by (apply land_shiftl_low; [lia | change (2 ^ 8) with 256; lia]).
  rewrite <- Z.lxor_lor by exact Hland.
  rewrite <- Z.add_nocarry_lxor by exact Hland.
  rewrite Hsh. apply ToInt32_small. lia.
Qed.

(** ** Codepoint Resolver *)

Section ResolverFacts.

Variable jconv_encode : list Z -> list Z -> completion (option (list Z)).
Variable Encoding_convert : list Z -> list Z -> completion (option (list Z)).
Variable st : FontState.

Local Abbreviation resolve := (unicodeToJisHexCode jconv_encode Encoding_convert st).
Local Abbreviation chain := (resolve_chain jconv_encode Encoding_convert st).

Lemma stored_key candidate hexCode :
  stored st candidate = Some hexCode ->
  candidate = Some hexCode /\ is_Some (jisCharacterMap st !! hexCode).
Proof.
  unfold stored, has. destruct candidate as [h|]; [| discriminate].
  destruct (jisCharacterMap st !! h) eqn:E; [| discriminate].
  intros [= <-]. split; [reflexivity | rewrite E; eauto].
Qed.

Lemma first_hit_key candidates hexCode :
  first_hit st candidates = Some hexCode ->
  In (Some hexCode) candidates /\ is_Some (jisCharacterMap st !! hexCode).
Proof.
  induction candidates as [|c rest IH]; simpl; [discriminate |].
  destruct (stored st c) eqn:E.
  - intros [= <-]. apply stored_key in E as [-> Hk]. split; [left; reflexivity | exact Hk].
  - intros H. apply IH in H as [Hin Hk]. split; [right; exact Hin | exact Hk].
Qed.

(** The loop over the secondary library's encodings is the tail of the
    chain: an exception of one encoding is a miss of that encoding. *)
Lemma try_conversions_first_hit codes conversions :
  try_conversions Encoding_convert st codes conversions
  = first_hit st
      (map (fun encoding => pair_candidate (miss_on_error (Encoding_convert codes encoding)))
           conversions).
Proof.
  induction conversions as [|encoding rest IH]; simpl; [reflexivity |].
  rewrite <- IH.
  destruct (Encoding_convert codes encoding) as [bytes | e]; simpl.
  - destruct (stored st (pair_candidate bytes)); reflexivity.
  - reflexivity.
Qed.

Lemma resolve_normal char : exists r, resolve char = Normal r.
Proof.
  unfold unicodeToJisHexCode.
  destruct (jconv_encode char (JS.lit "JIS")) as [a | e]; simpl; [| eauto].
  destruct (stored st (jis_candidate a)); simpl; [eauto |].
  destruct (jconv_encode char (JS.lit "SJIS")) as [b | e]; simpl; [| eauto].
  destruct (stored st (pair_candidate b)); simpl; eauto.
Qed.

Lemma resolve_chain_eq char a b :
  jconv_encode char (JS.lit "JIS") = Normal a ->
  jconv_encode char (JS.lit "SJIS") = Normal b ->
  resolve char = Normal (chain char).
Proof.
  intros Ha Hb.
  unfold unicodeToJisHexCode, resolve_chain, scheme_candidates.
  rewrite Ha, Hb, try_conversions_first_hit. simpl.
  destruct (stored st (jis_candidate a)); simpl; [reflexivity |].
  destruct (stored st (pair_candidate b)); reflexivity.
Qed.

End ResolverFacts.

(** C2 as stated fails: with a JIS encoder that raises, the resolver
    answers unresolved although the SJIS scheme, tried next by the chain of
    the specification, would hit the store. *)
Lemma unicodeToJisHexCode_error_not_a_miss :
  ~ (forall jconv_encode Encoding_convert st char,
        unicodeToJisHexCode jconv_encode Encoding_convert st char
        = Normal (resolve_chain jconv_encode Encoding_convert st char)).
Proof.
  intros H.
  specialize (H failing_jconv sample_Encoding sample_font [0x3042]).
  vm_compute in H. discriminate H.
Qed.

(** C2, amended. Resolution never throws. An error of the secondary
    library is a miss of that encoding only (the chain goes on); an error
    of the primary library, raised by the JIS call or by the SJIS call
    after a JIS miss, ends resolution at once with unresolved. *)
Theorem unicodeToJisHexCode_catches :
  forall jconv_encode Encoding_convert st char,
    exists r,
      unicodeToJisHexCode jconv_encode Encoding_convert st char = Normal r
      /\ (forall e, jconv_encode char (JS.lit "JIS") = Throw e -> r = None)
      /\ (forall a e,
            jconv_encode char (JS.lit "JIS") = Normal a ->
            stored st (jis_candidate a) = None ->
            jconv_encode char (JS.lit "SJIS") = Throw e ->
            r = None)
      /\ (forall a,
            jconv_encode char (JS.lit "JIS") = Normal a ->
            is_Some (stored st (jis_candidate a))
            \/ (exists b, jconv_encode char (JS.lit "SJIS") = Normal b) ->
            r = resolve_chain jconv_encode Encoding_convert st char).
Proof.
  intros jconv_encode Encoding_convert st char.
  destruct (resolve_normal jconv_encode Encoding_convert st char) as [r Hr].
  exists r. split; [exact Hr |]. split; [| split].
  - intros e He. unfold unicodeToJisHexCode in Hr. rewrite He in Hr.
    simpl in Hr. congruence.
  - intros a e Ha Hmiss He. unfold unicodeToJisHexCode in Hr.
    rewrite Ha in Hr. simpl in Hr. rewrite Hmiss, He in Hr.
    simpl in Hr. congruence.
  - intros a Ha [[h Hh] | [b Hb]].
    + unfold unicodeToJisHexCode in Hr. rewrite Ha in Hr. simpl in Hr.
      rewrite Hh in Hr.
      unfold resolve_chain, scheme_candidates. rewrite Ha. simpl.
      rewrite Hh. simpl in Hr. congruence.
    + rewrite (resolve_chain_eq _ _ _ _ _ _ Ha Hb) in Hr. congruence.
Qed.

Lemma unicodeToJisHexCode_catches_witness :
  unicodeToJisHexCode failing_jconv sample_Encoding sample_font [0x3042]
  = Normal None.
Proof.
  destruct (unicodeToJisHexCode_catches failing_jconv sample_Encoding sample_font
              [0x3042]) as (r & Hr & Hjis & _).
  rewrite Hr. f_equal. apply (Hjis (LibraryError 1)). reflexivity.
Defined.

(** ** Glyph Compositor: uniform mode *)

Lemma lookup_map {A B} (f : A -> B) (l : list A) (i : nat) :
  map f l !! i = f <$> (l !! i).
Proof.
  revert i. induction l as [|x l IH]; intros [|i]; simpl; auto.
Qed.

Lemma join_cons sep (r : list Z) (rest : list (list Z)) :
  rest <> [] -> JS.join sep (r :: rest) = r ++ sep ++ JS.join sep rest.
Proof. destruct rest; [congruence | reflexivity]. Qed.

(** The accumulating loop is [join(' ')] of the cells. *)
Lemma append_cells_join cells line :
  append_cells cells line = line ++ JS.join [32] cells.
Proof.
  revert line. induction cells as [|cell rest IH]; intros line; simpl.
  - rewrite app_nil_r. reflexivity.
  - destruct rest as [|cell' rest'].
    + simpl. reflexivity.
    + rewrite bool_decide_eq_false_2 by discriminate.
      rewrite IH. rewrite <- !app_assoc. reflexivity.
Qed.

Lemma join_length_congr sep (c1 c2 : list (list Z)) :
  map length c1 = map length c2 ->
  length (JS.join sep c1) = length (JS.join sep c2).
Proof.
  revert c2. induction c1 as [|x c1 IH]; intros [|y c2] H; try discriminate.
  - reflexivity.
  - injection H as Hxy Hrest.
    destruct c1 as [|x' c1'], c2 as [|y' c2']; try discriminate.
    + simpl. exact Hxy.
    + rewrite (join_cons sep x (x' :: c1')), (join_cons sep y (y' :: c2'))
        by discriminate.
      rewrite !length_app, Hxy. f_equal. f_equal. apply IH. exact Hrest.
Qed.

Lemma rectangular_spec rows :
  rectangular rows = true <->
  exists w, Forall (fun r : list Z => length r = w) rows.
Proof.
  destruct rows as [|r rest]; simpl.
  - split; [exists 0%nat; constructor | reflexivity].
  - rewrite forallb_forall. split.
    + intros H. exists (length r). constructor; [reflexivity |].
      apply Forall_forall. intros x Hx.
      apply Nat.eqb_eq, H, list_elem_of_In, Hx.
    + intros [w Hw] x Hx. inversion Hw as [|? ? Hr Hrest]; subst.
      rewrite Forall_forall in Hrest.
      apply Nat.eqb_eq. apply Hrest, list_elem_of_In, Hx.
Qed.

(** In a rectangular glyph every existing row has the same length. *)
Lemma rectangular_rows (g : list (list Z)) i j :
  rectangular g = true -> (i < length g)%nat -> (j < length g)%nat ->
  length (default [] (g !! i)) = length (default [] (g !! j)).
Proof.
  intros Hg Hi Hj. apply rectangular_spec in Hg as [w Hw].
  rewrite Forall_forall in Hw.
  destruct (lookup_lt_is_Some_2 g i Hi) as [ri Hri].
  destruct (lookup_lt_is_Some_2 g j Hj) as [rj Hrj].
  rewrite Hri, Hrj. simpl.
  rewrite (Hw ri), (Hw rj); [reflexivity | |];
    eapply list_elem_of_lookup_2; eassumption.
Qed.

Lemma max_list_same (l : list nat) n :
  l <> [] -> Forall (fun x => x = n) l -> max_list l = n.
Proof.
  intros Hne H. induction H as [|x l Hx Hl IH]; [congruence |].
  simpl. subst x. destruct l as [|y l']; [simpl; lia |].
  rewrite IH by discriminate. lia.
Qed.

Lemma combineLines_length charLines :
  length (combineLines charLines) = maxHeightOf charLines.
Proof. unfold combineLines. rewrite length_map, length_seq. reflexivity. Qed.

Lemma combineLines_row charLines row :
  (row < maxHeightOf charLines)%nat ->
  combineLines charLines !! row
  = Some (JS.join [32]
            (map (fun glyph : list (list Z) => default [] (glyph !! row)) charLines)).
Proof.
  intros Hrow. unfold combineLines.
  rewrite lookup_map, lookup_seq_lt by exact Hrow. simpl.
  rewrite append_cells_join. reflexivity.
Qed.

Lemma combineLines_rectangular charLines :
  Forall (fun glyph => rectangular glyph = true) charLines ->
  (forall g1 g2, In g1 charLines -> In g2 charLines -> length g1 = length g2) ->
  rectangular (combineLines charLines) = true.
Proof.
  intros Hrect Hsame.
  destruct charLines as [|g0 gs]; [reflexivity |].
  assert (Hmax : maxHeightOf (g0 :: gs) = length g0).
  { unfold maxHeightOf. apply max_list_same; [discriminate |].
    apply Forall_forall. intros x Hx.
    apply list_elem_of_In, in_map_iff in Hx as (g & <- & Hg).
    apply Hsame; [exact Hg | left; reflexivity]. }
  apply rectangular_spec.
  exists (length (JS.join [32]
                    (map (fun glyph : list (list Z) => default [] (glyph !! 0%nat))
                         (g0 :: gs)))).
  apply Forall_forall. intros line Hline.
  apply list_elem_of_lookup in Hline as [row Hrow].
  assert (Hlt : (row < maxHeightOf (g0 :: gs))%nat).
  { rewrite <- combineLines_length. eapply lookup_lt_Some. exact Hrow. }
  pose proof (combineLines_row _ _ Hlt) as Hrow'.
  assert (Hline : line = JS.join [32]
                    (map (fun glyph : list (list Z) => default [] (glyph !! row))
                         (g0 :: gs))) by congruence.
  rewrite Hline.
  apply join_length_congr.
  rewrite !map_map. apply map_ext_in. intros g Hg.
  rewrite Forall_forall in Hrect.
  assert (Hlen : length g = length g0) by (apply Hsame; [exact Hg | left; reflexivity]).
  apply rectangular_rows.
  - apply Hrect, list_elem_of_In, Hg.
  - lia.
  - lia.
Qed.

(** C3 as stated fails: two rectangular glyphs of different heights give a
    ragged canvas, because the missing row of the shorter glyph is the
    empty string, not blanks of the glyph's width. *)
Lemma combineLines_not_rectangular :
  ~ (forall charLines : list (list (list Z)),
        charLines <> [] ->
        Forall (fun glyph => rectangular glyph = true) charLines ->
        rectangular (combineLines charLines) = true).
Proof.
  intros H.
  specialize (H [[JS.lit "ab"; JS.lit "cd"]; [JS.lit "x"]]).
  assert (Hr : rectangular
                 (combineLines [[JS.lit "ab"; JS.lit "cd"]; [JS.lit "x"]]) = false)
    by reflexivity.
  rewrite H in Hr; [discriminate | discriminate |].
  repeat constructor.
Qed.

(** C3, amended. For a non-empty sequence of glyphs the combined canvas
    has as many rows as the tallest glyph; row [row] is the glyphs' rows of
    that index joined by single spaces, a glyph without such a row
    contributing the empty string (no padding); the canvas is rectangular
    when the glyphs are rectangular and all of one height. *)
Theorem combineLines_layout :
  forall charLines : list (list (list Z)),
    charLines <> [] ->
    length (combineLines charLines) = max_list (map length charLines)
    /\ (forall row,
          (row < max_list (map length charLines))%nat ->
          combineLines charLines !! row
          = Some (JS.join [32]
                    (map (fun glyph : list (list Z) => default [] (glyph !! row))
                         charLines)))
    /\ (forall (glyph : list (list Z)) row,
          In glyph charLines -> (length glyph <= row)%nat ->
          default [] (glyph !! row) = [])
    /\ (Forall (fun glyph => rectangular glyph = true) charLines ->
        (forall g1 g2, In g1 charLines -> In g2 charLines -> length g1 = length g2) ->
        rectangular (combineLines charLines) = true).
Proof.
  intros charLines _. split; [| split; [| split]].
  - apply combineLines_length.
  - intros row Hrow. apply combineLines_row. exact Hrow.
  - intros glyph row _ Hrow. rewrite lookup_ge_None_2 by exact Hrow. reflexivity.
  - apply combineLines_rectangular.
Qed.

Lemma combineLines_layout_witness :
  combineLines [[JS.lit "ab"; JS.lit "cd"]; [JS.lit "x"]] !! 1%nat
  = Some (JS.lit "cd ").
Proof.
  destruct (combineLines_layout [[JS.lit "ab"; JS.lit "cd"]; [JS.lit "x"]])
    as (_ & Hrow & _); [discriminate |].
  rewrite Hrow; [reflexivity | simpl; lia].
Defined.

(** ** Glyph Compositor: per-character block mode *)

Section BlockFacts.

Variable stringWidth : list Z -> Z.

Lemma repeat_single c n : JS.repeat [c] n = List.repeat c (Z.to_nat n).
Proof.
  unfold JS.repeat. induction (Z.to_nat n) as [|k IH]; simpl; [reflexivity |].
  rewrite IH. reflexivity.
Qed.

(** [max(charWidth * 3, 6)] with [charWidth = w || 1] is [max(w * 3, 6)]. *)
Lemma blockWidthOf_eq char :
  blockWidthOf stringWidth char = Z.max (stringWidth char * 3) 6.
Proof.
  unfold blockWidthOf, charWidthOf.
  destruct (Z.eqb_spec (stringWidth char) 0) as [-> | _]; reflexivity.
Qed.

Lemma blockWidthOf_min char : 6 <= blockWidthOf stringWidth char.
Proof. rewrite blockWidthOf_eq. lia. Qed.

(** Every count handed to [repeat] is non-negative. *)
Lemma createJapaneseBlock_counts char :
  0 <= blockWidthOf stringWidth char
  /\ 0 <= blockWidthOf stringWidth char - 2
  /\ 0 <= paddingOf stringWidth char / 2
  /\ 0 <= paddingOf stringWidth char - paddingOf stringWidth char / 2.
Proof.
  pose proof (blockWidthOf_min char).
  assert (0 <= paddingOf stringWidth char) by (unfold paddingOf; lia).
  repeat split; try lia.
  - apply Z.div_pos; lia.
  - pose proof (Z.div_mod (paddingOf stringWidth char) 2).
    pose proof (Z.mod_pos_bound (paddingOf stringWidth char) 2). lia.
Qed.

Lemma block_rows_eq char more l0 l1 l2 l3 l4 :
  block_rows stringWidth char more [l0; l1; l2; l3; l4]
  = let sp := if more then [32; 32] else [] in
    [ l0 ++ block_cell stringWidth 0 char ++ sp;
      l1 ++ block_cell stringWidth 1 char ++ sp;
      l2 ++ block_cell stringWidth 2 char ++ sp;
      l3 ++ block_cell stringWidth 3 char ++ sp;
      l4 ++ block_cell stringWidth 4 char ++ sp ].
Proof.
  unfold block_rows, block_cell, paddingOf.
  rewrite !repeat_single.
  generalize (blockWidthOf stringWidth char) (charWidthOf stringWidth char).
  intros bw cw.
  change (seq 0 (Z.to_nat scale)) with [0; 1; 2; 3; 4]%nat.
  change (scale - 1) with 4. change (scale / 2) with 2.
  destruct more; simpl; rewrite ?app_nil_r, <- ?app_assoc; simpl;
    rewrite <- ?app_assoc; reflexivity.
Qed.

Lemma join_step (cell : list Z) (more : list (list Z)) (l : list Z) :
  (l ++ cell ++ (if negb (bool_decide (more = [])) then [32; 32] else []))
  ++ JS.join [32; 32] more
  = l ++ JS.join [32; 32] (cell :: more).
Proof.
  destruct more as [|c more'].
  - simpl. rewrite !app_nil_r. reflexivity.
  - rewrite bool_decide_eq_false_2 by discriminate.
    rewrite (join_cons [32; 32] cell (c :: more')) by discriminate. cbn [negb].
    rewrite <- !app_assoc. reflexivity.
Qed.

(** The loop over the characters appends, to each of the five rows, the
    cells of that row joined by two blanks. *)
Lemma block_loop_eq chars l0 l1 l2 l3 l4 :
  block_loop stringWidth chars [l0; l1; l2; l3; l4]
  = map (fun '(row, l) =>
           l ++ JS.join [32; 32] (map (block_cell stringWidth row) chars))
        [(0, l0); (1, l1); (2, l2); (3, l3); (4, l4)]%nat.
Proof.
  revert l0 l1 l2 l3 l4.
  induction chars as [|char rest IH]; intros l0 l1 l2 l3 l4.
  - simpl. rewrite !app_nil_r. reflexivity.
  - cbn [block_loop]. rewrite block_rows_eq. cbv zeta. rewrite IH.
    cbn [map]. rewrite <- !(join_step _ (map _ rest)).
    destruct rest; reflexivity.
Qed.

Lemma createJapaneseBlock_lines_eq text :
  createJapaneseBlock_lines stringWidth text
  = map (fun row =>
           JS.join [32; 32] (map (block_cell stringWidth row) (JS.Array_from text)))
        (seq 0 5).
Proof.
  unfold createJapaneseBlock_lines.
  change (replicate (Z.to_nat scale) []) with [[]; []; []; []; [] : list Z].
  rewrite block_loop_eq. reflexivity.
Qed.

Lemma block_cell_middle_length char :
  Z.of_nat (length (block_cell stringWidth 2 char))
  = paddingOf stringWidth char + Z.of_nat (length char).
Proof.
  pose proof (createJapaneseBlock_counts char) as (_ & _ & Hl & Hr).
  cbn [block_cell]. rewrite !length_app, !repeat_length. lia.
Qed.

Lemma block_cell_border_length char :
  Z.of_nat (length (block_cell stringWidth 0 char)) = blockWidthOf stringWidth char.
Proof.
  pose proof (blockWidthOf_min char).
  cbn [block_cell]. rewrite repeat_length. lia.
Qed.

End BlockFacts.

(** C5. In per-character block mode the output has exactly 5 rows; row
    [row] is the characters' cells of that row joined by two blank columns;
    for a character of display width [w] the block is [max(w*3, 6)] wide:
    rows 0 and 4 are that many ink cells, rows 1 and 3 are an ink cell,
    [max(w*3, 6) - 2] blanks and an ink cell, and the middle row is the
    character between two runs of ink whose lengths differ by at most one,
    the longer one on the right, and which together with the [w >= 1]
    columns of the character fill the block width. *)
Theorem createJapaneseBlock_layout :
  forall (stringWidth : list Z -> Z) (text : list Z),
    length (createJapaneseBlock_lines stringWidth text) = 5%nat
    /\ createJapaneseBlock_lines stringWidth text
       = map (fun row =>
                JS.join [32; 32]
                  (map (block_cell stringWidth row) (JS.Array_from text)))
             [0; 1; 2; 3; 4]%nat
    /\ forall char : list Z,
         let blockWidth := Z.max (stringWidth char * 3) 6 in
         block_cell stringWidth 0 char = List.repeat ink (Z.to_nat blockWidth)
         /\ block_cell stringWidth 4 char = List.repeat ink (Z.to_nat blockWidth)
         /\ block_cell stringWidth 1 char
            = [ink] ++ List.repeat 32 (Z.to_nat (blockWidth - 2)) ++ [ink]
         /\ block_cell stringWidth 3 char
            = [ink] ++ List.repeat 32 (Z.to_nat (blockWidth - 2)) ++ [ink]
         /\ Z.of_nat (length (block_cell stringWidth 1 char)) = blockWidth
         /\ exists leftPad rightPad : nat,
              block_cell stringWidth 2 char
              = List.repeat ink leftPad ++ char ++ List.repeat ink rightPad
              /\ (rightPad = leftPad \/ rightPad = S leftPad)
              /\ (1 <= stringWidth char ->
                  Z.of_nat leftPad + stringWidth char + Z.of_nat rightPad
                  = blockWidth).
Proof.
  intros stringWidth text. split; [| split].
  - rewrite createJapaneseBlock_lines_eq, length_map. reflexivity.
  - apply createJapaneseBlock_lines_eq.
  - intros char blockWidth. subst blockWidth.
    rewrite <- blockWidthOf_eq.
    pose proof (blockWidthOf_min stringWidth char) as Hmin.
    repeat split.
    + cbn [block_cell]. rewrite !length_app, repeat_length. simpl. lia.
    + exists (Z.to_nat (paddingOf stringWidth char / 2)),
             (Z.to_nat (paddingOf stringWidth char - paddingOf stringWidth char / 2)).
      split; [reflexivity |].
      pose proof (createJapaneseBlock_counts stringWidth char) as (_ & _ & Hl & Hr).
      pose proof (Z.div_mod (paddingOf stringWidth char) 2).
      pose proof (Z.mod_pos_bound (paddingOf stringWidth char) 2).
      split; [lia |]. intros Hw.
      assert (Hpad : paddingOf stringWidth char
                     = blockWidthOf stringWidth char - stringWidth char).
      { unfold paddingOf, charWidthOf. rewrite blockWidthOf_eq.
        destruct (Z.eqb_spec (stringWidth char) 0); lia. }
      lia.
Qed.

(** C10 as stated fails: a supplementary-plane character of display width
    2 (here U+20BB7, a CJK extension B ideograph) is two code units, and
    the middle row of its block is exactly as long as the border rows. *)
Lemma createJapaneseBlock_astral_rows_equal :
  ~ (forall (stringWidth : list Z -> Z) (char top middle : list Z),
        is_code_point char ->
        2 <= stringWidth char ->
        createJapaneseBlock_lines stringWidth char !! 0%nat = Some top ->
        createJapaneseBlock_lines stringWidth char !! 2%nat = Some middle ->
        (length middle < length top)%nat).
Proof.
  intros H.
  specialize (H sample_stringWidth [0xD842; 0xDFB7]
                (List.repeat ink 6)
                ([ink; ink] ++ [0xD842; 0xDFB7] ++ [ink; ink])).
  assert (Hlt : (6 < 6)%nat); [| lia].
  apply H.
  - right. exists 0xD842, 0xDFB7. split; reflexivity.
  - vm_compute. discriminate.
  - reflexivity.
  - reflexivity.
Qed.

(** C10, amended. For a character of display width [w >= 2] the border
    rows of its block have [blockWidth = max(w*3, 6)] code units and the
    middle row has [blockWidth - w] ink cells plus the code units of the
    character; the middle row is therefore shorter than the border rows
    exactly when the character has fewer code units than columns, as every
    character of the Basic Multilingual Plane (one code unit) has. *)
Theorem createJapaneseBlock_middle_row_units :
  forall (stringWidth : list Z -> Z) (char : list Z),
    is_code_point char ->
    2 <= stringWidth char ->
    let w := stringWidth char in
    let blockWidth := Z.max (w * 3) 6 in
    exists top middle : list Z,
      createJapaneseBlock_lines stringWidth char !! 0%nat = Some top
      /\ createJapaneseBlock_lines stringWidth char !! 2%nat = Some middle
      /\ Z.of_nat (length top) = blockWidth
      /\ Z.of_nat (length middle) = blockWidth - w + Z.of_nat (length char)
      /\ ((length middle < length top)%nat <-> Z.of_nat (length char) < w)
      /\ (length char = 1%nat -> (length middle < length top)%nat).
Proof.
  intros stringWidth char Hcp Hw w blockWidth.
  assert (Hfrom : JS.Array_from char = [char]).
  { destruct Hcp as [[u ->] | (u & v & -> & E)]; [reflexivity |].
    rewrite Array_from_pair by exact E. reflexivity. }
  exists (block_cell stringWidth 0 char), (block_cell stringWidth 2 char).
  rewrite createJapaneseBlock_lines_eq, Hfrom.
  pose proof (block_cell_border_length stringWidth char) as Htop.
  pose proof (block_cell_middle_length stringWidth char) as Hmid.
  rewrite blockWidthOf_eq in Htop.
  assert (Hpad : paddingOf stringWidth char = blockWidth - w).
  { unfold paddingOf, charWidthOf. rewrite blockWidthOf_eq.
    destruct (Z.eqb_spec (stringWidth char) 0); subst w blockWidth; lia. }
  rewrite Hpad in Hmid.
  split; [reflexivity |]. split; [reflexivity |].
  split; [exact Htop |]. split; [exact Hmid |].
  split; [| intros H1]; subst w blockWidth; lia.
Qed.

Lemma createJapaneseBlock_middle_row_units_witness :
  exists top middle : list Z,
    createJapaneseBlock_lines sample_stringWidth [0x65E5] !! 0%nat = Some top
    /\ createJapaneseBlock_lines sample_stringWidth [0x65E5] !! 2%nat = Some middle
    /\ (length middle < length top)%nat.
Proof.
  destruct (createJapaneseBlock_middle_row_units sample_stringWidth [0x65E5])
    as (top & middle & H0 & H2 & _ & _ & _ & Hlt).
  - left. exists 0x65E5. reflexivity.
  - vm_compute. discriminate.
  - exists top, middle. split; [exact H0 |]. split; [exact H2 |].
    apply Hlt. reflexivity.
Defined.

(** ** Legacy codepoints *)

Lemma hex_digit_lower d : 0 <= d < 16 -> is_lower_hex_digit (Num.hex_digit d) = true.
Proof.
  intros H. unfold Num.hex_digit, is_lower_hex_digit, is_digit.
  destruct (Z.ltb_spec d 10); lia.
Qed.

Lemma hex_digits_lower fuel n acc :
  forallb is_lower_hex_digit acc = true ->
  forallb is_lower_hex_digit (Num.hex_digits fuel n acc) = true.
Proof.
  revert n acc. induction fuel as [|fuel IH]; intros n acc Hacc; simpl; [exact Hacc |].
  assert (Hd : forallb is_lower_hex_digit (Num.hex_digit (n mod 16) :: acc) = true).
  { simpl. rewrite Hacc, hex_digit_lower; [reflexivity |].
    apply Z.mod_pos_bound. lia. }
  destruct (n / 16 =? 0); [exact Hd | apply IH, Hd].
Qed.

Lemma hex_digits_nonempty fuel n acc :
  acc <> [] \/ fuel <> O -> Num.hex_digits fuel n acc <> [].
Proof.
  revert n acc. induction fuel as [|fuel IH]; intros n acc H; simpl.
  - destruct H; congruence.
  - destruct (n / 16 =? 0); [discriminate |]. apply IH. left. discriminate.
Qed.

(** A number below [16^k] has at most [k] digits. *)
Lemma hex_digits_length fuel (k : nat) n acc :
  (1 <= k)%nat ->
  0 <= n < 16 ^ Z.of_nat k ->
  (length (Num.hex_digits fuel n acc) <= k + length acc)%nat.
Proof.
  revert n k acc.
  induction fuel as [|fuel IH]; intros n k acc Hk Hn; simpl; [lia |].
  destruct (Z.eqb_spec (n / 16) 0) as [E | E]; simpl.
  - lia.
  - destruct k as [|[|k]].
    + lia.
    + exfalso. apply E. apply Z.div_small. simpl in Hn. lia.
    + specialize (IH (n / 16) (S k) (Num.hex_digit (n mod 16) :: acc)).
      simpl length in IH.
      assert (Hq : 0 <= n / 16 < 16 ^ Z.of_nat (S k)).
      { split; [apply Z.div_pos; lia |].
        apply Z.div_lt_upper_bound; [lia |].
        rewrite <- Z.pow_succ_r by lia.
        replace (Z.succ (Z.of_nat (S k))) with (Z.of_nat (S (S k))) by lia.
        apply Hn. }
      specialize (IH ltac:(lia) Hq). lia.
Qed.

Lemma toLowerCase_lower s :
  forallb is_lower_hex_digit s = true -> JS.toLowerCase s = s.
Proof.
  induction s as [|u s IH]; simpl; [reflexivity |].
  intros H. apply andb_true_iff in H as [Hu Hs].
  rewrite IH by exact Hs. f_equal.
  unfold is_lower_hex_digit, is_digit in Hu.
  destruct ((65 <=? u) && (u <=? 90)) eqn:E; [lia | reflexivity].
Qed.

Lemma digit_value_hex_digit d : 0 <= d < 16 -> digit_value (Num.hex_digit d) = d.
Proof.
  intros H. unfold digit_value, Num.hex_digit, is_digit.
  destruct (Z.ltb_spec d 10).
  - replace ((48 <=? 48 + d) && (48 + d <=? 57)) with true by lia. lia.
  - replace ((48 <=? 87 + d) && (87 + d <=? 57)) with false by lia.
    replace ((97 <=? 87 + d) && (87 + d <=? 102)) with true by lia. lia.
Qed.

(** With enough fuel the digits denote the number. *)
Lemma hex_digits_value fuel n acc :
  0 <= n < 16 ^ Z.of_nat fuel -> (1 <= fuel)%nat ->
  hex_value (Num.hex_digits fuel n acc)
  = n * 16 ^ Z.of_nat (length acc) + hex_value acc.
Proof.
  revert n acc. induction fuel as [|fuel IH]; intros n acc Hn Hfuel; [lia |].
  cbn [Num.hex_digits].
  pose proof (Z.div_mod n 16 ltac:(lia)) as Hdm.
  pose proof (Z.mod_pos_bound n 16 ltac:(lia)) as Hm.
  assert (Hv : hex_value (Num.hex_digit (n mod 16) :: acc)
               = (n mod 16) * 16 ^ Z.of_nat (length acc) + hex_value acc)
    by (cbn [hex_value]; rewrite digit_value_hex_digit by lia; reflexivity).
  destruct (Z.eqb_spec (n / 16) 0) as [E | E].
  - rewrite Hv. replace (n mod 16) with n by lia. reflexivity.
  - assert (Hq : 0 <= n / 16 < 16 ^ Z.of_nat fuel).
    { split; [apply Z.div_pos; lia |].
      apply Z.div_lt_upper_bound; [lia |].
      rewrite <- Z.pow_succ_r by lia.
      replace (Z.succ (Z.of_nat fuel)) with (Z.of_nat (S fuel)) by lia.
      apply Hn. }
    destruct fuel as [|fuel'].
    { simpl in Hq. lia. }
    rewrite IH by (try exact Hq; lia). rewrite Hv.
    cbn [length]. rewrite Nat2Z.inj_succ, Z.pow_succ_r by lia. lia.
Qed.

Lemma toString16_value n : 0 <= n -> hex_value (Num.toString16 n) = n.
Proof.
  intros Hn. unfold Num.toString16.
  destruct (Z.ltb_spec n 0) as [Hneg | _]; [lia |].
  rewrite hex_digits_value; [simpl; lia | | lia].
  split; [exact Hn |].
  destruct (Z.eq_dec n 0) as [-> | Hne]; [reflexivity |].
  rewrite Nat2Z.inj_succ, Z2Nat.id by apply Z.log2_nonneg.
  pose proof (Z.log2_spec n ltac:(lia)) as [_ Hup].
  apply Z.lt_le_trans with (2 ^ Z.succ (Z.log2 n)); [exact Hup |].
  apply Z.pow_le_mono_l. lia.
Qed.

Lemma hex_value_zeros k s : hex_value (List.repeat 48 k ++ s) = hex_value s.
Proof.
  induction k as [|k IH]; [reflexivity |].
  cbn [List.repeat app hex_value]. change (digit_value 48) with 0.
  rewrite IH. lia.
Qed.

(** The resolver's candidate from two bytes: exactly four digits 0-9a-f. *)
Lemma hexCodeOf_shape b1 b2 :
  0 <= b1 < 256 -> 0 <= b2 < 256 ->
  length (hexCodeOf b1 b2) = 4%nat /\ is_lower_hex (hexCodeOf b1 b2) = true.
Proof.
  intros H1 H2. unfold hexCodeOf. rewrite combine_bytes by assumption.
  set (n := 256 * b1 + b2). assert (Hn : 0 <= n < 16 ^ Z.of_nat 4)
    by (change (16 ^ Z.of_nat 4) with 65536; lia).
  unfold Num.toString16. destruct (Z.ltb_spec n 0) as [Hneg | _]; [lia |].
  set (fuel := S (Z.to_nat (Z.log2 n))).
  pose proof (hex_digits_length fuel 4 n [] ltac:(lia) Hn) as Hlen.
  change (4 + length (@nil Z))%nat with 4%nat in Hlen.
  pose proof (hex_digits_lower fuel n [] eq_refl) as Hlow.
  rewrite (toLowerCase_lower _ Hlow).
  assert (Hpad : forall s : list Z,
             (length s <= 4)%nat -> forallb is_lower_hex_digit s = true ->
             length (JS.padStart s 4 48) = 4%nat
             /\ forallb is_lower_hex_digit (JS.padStart s 4 48) = true).
  { intros s Hs Hf. unfold JS.padStart. split.
    - rewrite length_app, repeat_length. lia.
    - rewrite forallb_app, Hf, andb_true_r.
      apply forallb_forall. intros x Hx. apply repeat_spec in Hx. subst x.
      reflexivity. }
  destruct (Hpad _ Hlen Hlow) as [Hl Hf]. split; [exact Hl |].
  unfold is_lower_hex.
  destruct (JS.padStart (Num.hex_digits fuel n []) 4 48); [discriminate | exact Hf].
Qed.

(** ... and they denote the big-endian value of the two bytes. *)
Lemma hexCodeOf_value b1 b2 :
  0 <= b1 < 256 -> 0 <= b2 < 256 ->
  hex_value (hexCodeOf b1 b2) = 256 * b1 + b2.
Proof.
  intros H1 H2. unfold hexCodeOf. rewrite combine_bytes by assumption.
  assert (Hlow : forallb is_lower_hex_digit (Num.toString16 (256 * b1 + b2)) = true).
  { unfold Num.toString16.
    destruct (Z.ltb_spec (256 * b1 + b2) 0); [lia |].
    apply hex_digits_lower. reflexivity. }
  rewrite (toLowerCase_lower _ Hlow). unfold JS.padStart.
  rewrite hex_value_zeros. apply toString16_value. lia.
Qed.

(** C4. When the primary library returns normally for both encodings, the
    resolver's result is the first store hit among, in this order: (a)
    bytes 3 and 4 of the JIS output (the three escape bytes skipped), (b)
    bytes 0 and 1 of the SJIS output, (c) the first two bytes the
    secondary library gives for JISX0208, then for SJIS; each pair is
    combined big-endian: the candidate [hexCodeOf b0 b1] is the four-digit
    lower-case hexadecimal numeral of [256 * b0 + b1]; a candidate that is
    no key of the Glyph Font Store is passed over, and with no hit at all
    the result is unresolved. *)
Theorem unicodeToJisHexCode_order :
  forall jconv_encode Encoding_convert st char a b,
    jconv_encode char (JS.lit "JIS") = Normal a ->
    jconv_encode char (JS.lit "SJIS") = Normal b ->
    let candidates :=
      [ jis_candidate a;
        pair_candidate b;
        pair_candidate (miss_on_error (Encoding_convert char (JS.lit "JISX0208")));
        pair_candidate (miss_on_error (Encoding_convert char (JS.lit "SJIS"))) ] in
    unicodeToJisHexCode jconv_encode Encoding_convert st char
    = Normal (first_hit st candidates)
    /\ (forall hexCode,
          first_hit st candidates = Some hexCode ->
          In (Some hexCode) candidates /\ is_Some (jisCharacterMap st !! hexCode))
    /\ (first_hit st candidates = None <->
        Forall (fun c => stored st c = None) candidates)
    /\ (forall e0 e1 e2 b3 b4 rest,
          jis_candidate (Some (e0 :: e1 :: e2 :: b3 :: b4 :: rest))
          = Some (hexCodeOf b3 b4))
    /\ (forall b0 b1 rest,
          pair_candidate (Some (b0 :: b1 :: rest)) = Some (hexCodeOf b0 b1))
    /\ (forall b0 b1,
          0 <= b0 < 256 -> 0 <= b1 < 256 ->
          Num.bor (Num.shl b0 8) b1 = 256 * b0 + b1
          /\ hex_value (hexCodeOf b0 b1) = 256 * b0 + b1
          /\ length (hexCodeOf b0 b1) = 4%nat
          /\ is_lower_hex (hexCodeOf b0 b1) = true).
Proof.
  intros jconv_encode Encoding_convert st char a b Ha Hb candidates.
  split; [| split; [| split; [| split; [| split]]]].
  - rewrite (resolve_chain_eq _ _ _ _ _ _ Ha Hb).
    unfold resolve_chain, scheme_candidates. rewrite Ha, Hb. reflexivity.
  - intros hexCode. apply first_hit_key.
  - generalize candidates. clear. intros cs.
    induction cs as [|c rest IH]; simpl.
    + split; [constructor | reflexivity].
    + destruct (stored st c) eqn:E.
      * split; [discriminate |]. intros H. inversion H; subst. congruence.
      * rewrite IH. split; [intros H; constructor; assumption |].
        intros H. inversion H; assumption.
  - reflexivity.
  - reflexivity.
  - intros b0 b1 H0 H1.
    split; [apply combine_bytes; assumption |].
    split; [apply hexCodeOf_value; assumption |].
    apply hexCodeOf_shape; assumption.
Qed.

Lemma unicodeToJisHexCode_order_witness :
  unicodeToJisHexCode sample_jconv sample_Encoding sample_font [0x3042]
  = Normal (Some (JS.lit "2422"))
  /\ hex_value (hexCodeOf 0x82 0xA0) = 0x82A0.
Proof.
  destruct (unicodeToJisHexCode_order sample_jconv sample_Encoding sample_font
              [0x3042]
              (Some [0x1B; 0x24; 0x42; 0x24; 0x22; 0x1B; 0x28; 0x42])
              (Some [0x82; 0xA0]) eq_refl eq_refl) as (H & _ & _ & _ & _ & Hbig).
  split; [rewrite H; vm_compute; reflexivity |].
  destruct (Hbig 0x82 0xA0) as (_ & Hvalue & _); [lia | lia |].
  exact Hvalue.
Defined.

(** ** Glyph Font Store *)

Lemma match_header_hex line dec hex :
  match_header line = Some (dec, hex) ->
  hex <> [] /\ forallb is_hex_digit hex = true.
Proof.
  unfold match_header.
  destruct (span_digits line) as [[|d ds] [|u [|h hs]]]; try discriminate.
  - destruct u as [|q|q]; try discriminate.
    repeat (destruct q as [q|q|]; try discriminate).
  - destruct u as [|q|q]; try discriminate.
    repeat (destruct q as [q|q|]; try discriminate).
    destruct (forallb is_hex_digit (h :: hs)) eqn:E; [| discriminate].
    intros [= _ <-]. split; [discriminate | exact E].
Qed.




(** The glyph reader leaves the cursor inside the lines it was given. *)
Lemma read_glyph_cursor (lines glyphLines : list (list Z)) :
  (length (snd (read_glyph lines glyphLines)) <= length lines)%nat.
Proof.
  revert glyphLines. induction lines as [|l rest IH]; intros glyphLines; simpl.
  - lia.
  - destruct (JS.includes (JS.lit "@@") l); [simpl; lia |].
    destruct (JS.includes (JS.lit "$@") l);
      (etransitivity; [apply IH | lia]).
Qed.

(** Fuel equal to the number of lines is enough: more changes nothing. *)
Lemma parse_entries_fuel (fuel : nat) (lines : list (list Z))
    (m : gmap (list Z) (list Z)) :
  (length lines <= fuel)%nat ->
  parse_entries fuel lines m = parse_entries (length lines) lines m.
Proof.
  assert (H : forall n f1 f2 ls (m0 : gmap (list Z) (list Z)),
             (length ls <= n)%nat -> (n <= f1)%nat -> (n <= f2)%nat ->
             parse_entries f1 ls m0 = parse_entries f2 ls m0).
  { induction n as [|n IH]; intros f1 f2 ls m0 Hls H1 H2.
    - destruct ls; [| simpl in Hls; lia]. destruct f1, f2; reflexivity.
    - destruct ls as [|l rest]; [destruct f1, f2; reflexivity |].
      destruct f1 as [|f1]; [lia |]. destruct f2 as [|f2]; [lia |].
      simpl in Hls |- *.
      destruct (match_header (JS.trim l)) as [[dec hex] |].
      + pose proof (read_glyph_cursor rest []) as Hc.
        destruct (read_glyph rest []) as [glyphLines cursor]. simpl in Hc.
        apply IH; try lia.
        destruct cursor; simpl in *; lia.
      + apply IH; lia. }
  intros Hfuel. apply (H (length lines)); lia.
Qed.




(** ** Directional Colorizer *)

Lemma mapM_Normal {A B} (f : A -> completion B) (l : list A) (rows : list B) :
  mapM f l = Normal rows -> Forall2 (fun x y => f x = Normal y) l rows.
Proof.
  revert rows. induction l as [|x l IH]; intros rows H.
  - injection H as <-. constructor.
  - cbn [mapM] in H. unfold mbind, completion_bind, cbind in H.
    destruct (f x) as [y | e] eqn:Ex; [| discriminate].
    destruct (mapM f l) as [k | e] eqn:Ek; [| discriminate].
    injection H as <-. constructor; [exact Ex | apply IH; reflexivity].
Qed.

Section ColorizerFacts.

Variable gradient : list (option (list Z)) -> completion GradientFn.

(** What the diagonal branch does row by row. *)
Lemma colorizeDiagonal_rows palette asciiArt (rows : list (list Z)) :
  colorizeDiagonal gradient palette asciiArt = Normal rows ->
  length rows = length (JS.split_nl asciiArt)
  /\ forall (i : nat) (line : list Z),
       JS.split_nl asciiArt !! i = Some line ->
       if JS.is_blank line then rows !! i = Some line
       else exists g,
           gradient (shiftedPalette palette (Z.of_nat i)
                       (Z.of_nat (length (JS.split_nl asciiArt))))
           = Normal g
           /\ rows !! i = Some (applyLine g line).
Proof.
  unfold colorizeDiagonal. intros H. apply mapM_Normal in H.
  split.
  - apply Forall2_length in H. rewrite length_imap in H. congruence.
  - intros i line Hline.
    assert (Hi : imap pair (JS.split_nl asciiArt) !! i = Some (i, line))
      by (rewrite list_lookup_imap, Hline; reflexivity).
    destruct (Forall2_lookup_l _ _ _ _ _ H Hi) as (row & Hrow & Hf).
    cbv beta iota in Hf.
    destruct (JS.is_blank line).
    + injection Hf as <-. exact Hrow.
    + unfold mbind, completion_bind, cbind in Hf.
      destruct (gradient _) as [g | e] eqn:Eg; [| discriminate].
      injection Hf as <-. exists g. split; [reflexivity | exact Hrow].
Qed.

Lemma colorizeHorizontal_rows (gradientFn : GradientFn) asciiArt :
  length (colorizeHorizontal gradientFn asciiArt) = length (JS.split_nl asciiArt)
  /\ forall (i : nat) (line : list Z),
       JS.split_nl asciiArt !! i = Some line ->
       colorizeHorizontal gradientFn asciiArt !! i
       = Some (if JS.is_blank line then line else applyLine gradientFn line).
Proof.
  unfold colorizeHorizontal. split; [apply length_map |].
  intros i line Hline. rewrite lookup_map, Hline. reflexivity.
Qed.

End ColorizerFacts.

(** The exhaustive check of the double-precision shift. *)
Lemma shift_exact_upto_21_40 : shift_exact_upto 21 40 = true.
Proof. vm_compute. reflexivity. Qed.

Lemma shift_exact_upto_spec (Lmax nmax L n i c : nat) :
  shift_exact_upto Lmax nmax = true ->
  (1 <= L <= Lmax)%nat -> (1 <= n <= nmax)%nat -> (i < n)%nat -> (c < L)%nat ->
  shift_exact (Z.of_nat L) (Z.of_nat n) (Z.of_nat i) (Z.of_nat c) = true.
Proof.
  intros H HL Hn Hi Hc. unfold shift_exact_upto in H.
  rewrite forallb_forall in H. specialize (H L ltac:(apply in_seq; lia)).
  rewrite forallb_forall in H. specialize (H n ltac:(apply in_seq; lia)).
  rewrite forallb_forall in H. specialize (H i ltac:(apply in_seq; lia)).
  rewrite forallb_forall in H. exact (H c ltac:(apply in_seq; lia)).
Qed.

Lemma shift_exact_in_range (L n i c : nat) :
  (L <= 21)%nat -> (n <= 40)%nat -> (i < n)%nat -> (c < L)%nat ->
  shiftedIndex (Z.of_nat L) (Z.of_nat i) (Z.of_nat n) (Z.of_nat c)
  = Some ((Z.of_nat c + Z.of_nat i * Z.of_nat L / Z.of_nat n) mod Z.of_nat L).
Proof.
  intros HL Hn Hi Hc.
  pose proof (shift_exact_upto_spec 21 40 L n i c shift_exact_upto_21_40
                ltac:(lia) ltac:(lia) Hi Hc) as H.
  unfold shift_exact in H.
  destruct (shiftedIndex _ _ _ _) as [k |]; [| discriminate].
  apply Z.eqb_eq in H. congruence.
Qed.

(** Within the checked sizes the row palette is the palette rotated by
    [floor(i * L / n)] places. *)
Lemma shiftedPalette_rotate (palette : list (list Z)) (i n : nat) :
  (length palette <= 21)%nat -> (n <= 40)%nat -> (i < n)%nat ->
  shiftedPalette palette (Z.of_nat i) (Z.of_nat n)
  = map Some (rotate (i * length palette / n) palette).
Proof.
  intros HL Hn Hi. apply list_eq. intros c.
  unfold shiftedPalette. rewrite list_lookup_imap, lookup_map.
  destruct (palette !! c) as [col |] eqn:Ec.
  - assert (Hc : (c < length palette)%nat) by (eapply lookup_lt_Some; exact Ec).
    rewrite lookup_rotate_r by exact Hc. simpl.
    rewrite shift_exact_in_range by assumption.
    set (k := (Z.of_nat c + Z.of_nat i * Z.of_nat (length palette) / Z.of_nat n)
              mod Z.of_nat (length palette)).
    assert (Hk : 0 <= k < Z.of_nat (length palette))
      by (apply Z.mod_pos_bound; lia).
    destruct (Z.ltb_spec k 0) as [Hneg | _]; [lia |].
    assert (Hidx : rotate_nat_add (i * length palette / n) c (length palette)
                   = Z.to_nat k).
    { unfold rotate_nat_add. subst k. f_equal.
      rewrite Nat2Z.inj_div, Nat2Z.inj_mul. f_equal. lia. }
    rewrite Hidx.
    destruct (lookup_lt_is_Some_2 palette (Z.to_nat k) ltac:(lia)) as [x Hx].
    rewrite Hx. reflexivity.
  - simpl. symmetry.
    assert (Hge : (length palette <= c)%nat) by (apply lookup_ge_None; exact Ec).
    rewrite lookup_ge_None_2; [reflexivity |]. rewrite length_rotate. exact Hge.
Qed.

(** Within the checked sizes the claim about the diagonal mode holds: for a
    canvas of at most 40 rows and a palette of at most 21 colours, the row
    at index [i] is coloured by the single-line (horizontal) blend of the
    palette rotated by [floor(i * L / n)] places, and a blank row passes
    through unchanged. *)
Lemma colorizeDiagonal_rotates :
  forall (gradient : list (option (list Z)) -> completion GradientFn)
         (palette : list (list Z)) (asciiArt : list Z) (rows : list (list Z)),
    (length palette <= 21)%nat ->
    (length (JS.split_nl asciiArt) <= 40)%nat ->
    colorizeDiagonal gradient palette asciiArt = Normal rows ->
    length rows = length (JS.split_nl asciiArt)
    /\ forall (i : nat) (line : list Z),
         JS.split_nl asciiArt !! i = Some line ->
         let rotated :=
           rotate (i * length palette / length (JS.split_nl asciiArt)) palette in
         if JS.is_blank line then rows !! i = Some line
         else exists g,
             gradient (map Some rotated) = Normal g
             /\ rows !! i = Some (applyLine g line).
Proof.
  intros gradient palette asciiArt rows HL Hn Hrows.
  destruct (colorizeDiagonal_rows gradient palette asciiArt rows Hrows)
    as [Hlen Hrow].
  split; [exact Hlen |]. intros i line Hline rotated.
  specialize (Hrow i line Hline).
  destruct (JS.is_blank line); [exact Hrow |].
  destruct Hrow as (g & Hg & Hr). exists g. split; [| exact Hr].
  rewrite shiftedPalette_rotate in Hg; try assumption.
  eapply lookup_lt_Some. exact Hline.
Qed.

Example colorizeDiagonal_rotates_example :
  exists rows : list (list Z),
    colorizeDiagonal sample_gradient [JS.lit "#f00"; JS.lit "#0f0"; JS.lit "#00f"]
      (JS.join_nl [[ink]; [32; 32]; [ink; 32; ink]]) = Normal rows
    /\ rows !! 1%nat = Some [32; 32]
    /\ rows !! 2%nat = Some [27; ink; 32; 27; ink].
Proof.
  exists [[27; ink]; [32; 32]; [27; ink; 32; 27; ink]].
  assert (Hrows : colorizeDiagonal sample_gradient
                    [JS.lit "#f00"; JS.lit "#0f0"; JS.lit "#00f"]
                    (JS.join_nl [[ink]; [32; 32]; [ink; 32; ink]])
                  = Normal [[27; ink]; [32; 32]; [27; ink; 32; 27; ink]])
    by (vm_compute; reflexivity).
  split; [exact Hrows |].
  destruct (colorizeDiagonal_rotates sample_gradient
              [JS.lit "#f00"; JS.lit "#0f0"; JS.lit "#00f"]
              (JS.join_nl [[ink]; [32; 32]; [ink; 32; ink]])
              [[27; ink]; [32; 32]; [27; ink; 32; 27; ink]])
    as [_ Hrow].
  - simpl. lia.
  - vm_compute. lia.
  - exact Hrows.
  - split.
    + exact (Hrow 1%nat [32; 32] eq_refl).
    + destruct (Hrow 2%nat [ink; 32; ink] eq_refl) as (g & _ & Hr). reflexivity.
Qed.

Lemma shiftedPalette_22_15_no_rotation (k : nat) :
  shiftedPalette sample_palette22 15 22 <> map Some (rotate k sample_palette22).
Proof.
  intros Hk.
  assert (Hmod : rotate k sample_palette22 = rotate (k mod 22) sample_palette22).
  { unfold rotate. change (length sample_palette22) with 22%nat.
    rewrite Nat.Div0.mod_mod. reflexivity. }
  rewrite Hmod in Hk.
  assert (Hall : forallb
                   (fun j => negb (bool_decide
                      (shiftedPalette sample_palette22 15 22
                       = map Some (rotate j sample_palette22))))
                   (seq 0 22) = true) by (vm_compute; reflexivity).
  rewrite forallb_forall in Hall.
  specialize (Hall (k mod 22)%nat).
  rewrite bool_decide_eq_true_2 in Hall by exact Hk.
  assert (Hin : In (k mod 22)%nat (seq 0 22)).
  { apply in_seq. pose proof (Nat.mod_upper_bound k 22). lia. }
  specialize (Hall Hin). discriminate Hall.
Qed.

Lemma twelve_newlines_canvas :
  exists artLines : list (list Z),
    createJapaneseArt twelve_newlines = Normal artLines
    /\ length (JS.split_nl (JS.join_nl artLines)) = 22%nat
    /\ JS.split_nl (JS.join_nl artLines) !! 15%nat
       = Some (art "  #  # #  # ").
Proof.
  eexists. split; [vm_compute; reflexivity |]. split; vm_compute; reflexivity.
Qed.

(** With a colorizer that accepts the palette the rendering does return. *)
Example renderJapaneseText_twelve_newlines_returns :
  exists out : list Z,
    renderJapaneseText sample_jconv sample_Encoding sample_gradient no_font_state
      twelve_newlines sample_palette22 (JS.lit "diagonal") = Normal out.
Proof. eexists. vm_compute. reflexivity. Qed.

(** C6 (the code departs from the claim). The shift is computed in double
    precision: with 22 colours and 22 rows, [(15 / 22) * 22] is
    14.999999999999998, and [Math.floor(colorIndex + shift)] is
    [colorIndex + 14] for the colour indices 0 and 1 but [colorIndex + 15]
    from colour index 2 on (the sum rounds up to the integer). The palette
    of row 15 is therefore no rotation of the original palette, by any
    number of places. The renderer reaches this case on the text of twelve
    line feeds when no font is loaded: whenever it returns, the gradient
    library has been given that palette. *)
Theorem shiftedPalette_rounding :
  shiftedIndex 22 15 22 0 = Some 14
  /\ shiftedIndex 22 15 22 1 = Some 15
  /\ shiftedIndex 22 15 22 2 = Some 17
  /\ (forall k : nat,
        shiftedPalette sample_palette22 15 22
        <> map Some (rotate k sample_palette22))
  /\ (forall jconv_encode Encoding_convert gradient (out : list Z),
        renderJapaneseText jconv_encode Encoding_convert gradient no_font_state
          twelve_newlines sample_palette22 (JS.lit "diagonal") = Normal out ->
        exists g, gradient (shiftedPalette sample_palette22 15 22) = Normal g).
Proof.
  split; [vm_compute; reflexivity |].
  split; [vm_compute; reflexivity |].
  split; [vm_compute; reflexivity |].
  split; [exact shiftedPalette_22_15_no_rotation |].
  intros jconv_encode Encoding_convert gradient out Hout.
  destruct twelve_newlines_canvas as (artLines & Hart & Hlen & Hrow).
  unfold renderJapaneseText, renderJapaneseWithJisFont in Hout.
  change (no_font no_font_state) with true in Hout. cbn iota in Hout.
  unfold mbind, completion_bind in Hout. cbn [cbind truthy] in Hout.
  rewrite Hart in Hout. cbn [cbind] in Hout.
  unfold colorize in Hout. unfold mbind, completion_bind, cbind in Hout.
  destruct (gradient (map Some sample_palette22)) as [gradientFn | e];
    [| discriminate].
  destruct (decide (JS.lit "diagonal" = JS.lit "horizontal")) as [E | _];
    [discriminate E |].
  destruct (decide (JS.lit "diagonal" = JS.lit "diagonal")) as [_ | E];
    [| contradiction].
  destruct (colorizeDiagonal gradient sample_palette22 (JS.join_nl artLines))
    as [rows | e] eqn:Er; [| discriminate].
  destruct (colorizeDiagonal_rows gradient _ _ _ Er) as [_ Hrows].
  specialize (Hrows 15%nat _ Hrow). rewrite Hlen in Hrows.
  change (JS.is_blank (art "  #  # #  # "))
    with false in Hrows.
  destruct Hrows as (g & Hg & _). exists g. exact Hg.
Qed.

(** C7 as stated fails for the vertical direction: the canvas goes whole to
    the library's [multiline], and a colorizer that, like gradient-string's,
    colours every character there changes a row of blanks. *)
Lemma colorize_vertical_blank_row_changed :
  ~ (forall (gradient : list (option (list Z)) -> completion GradientFn)
            (asciiArt : list Z) (palette : list (list Z)) (direction out : list Z)
            (i : nat) (line : list Z),
        colorize gradient asciiArt palette direction = Normal out ->
        JS.split_nl asciiArt !! i = Some line ->
        JS.is_blank line = true ->
        JS.split_nl out !! i = Some line).
Proof.
  intros H.
  specialize (H sample_gradient
                (JS.join_nl [[ink]; [32; 32]; [ink]])
                [JS.lit "#f00"; JS.lit "#00f"]
                (JS.lit "vertical")
                (JS.join_nl [[27; ink]; [27; 32; 27; 32]; [27; ink]])
                1%nat [32; 32]).
  assert (Hrow : JS.split_nl (JS.join_nl [[27; ink]; [27; 32; 27; 32]; [27; ink]])
                 !! 1%nat = Some [32; 32]).
  { apply H; vm_compute; reflexivity. }
  vm_compute in Hrow. discriminate Hrow.
Qed.

(** C7, amended. In the horizontal and diagonal directions every
    whitespace-only row of the canvas is returned unchanged, in its place,
    by the renderer's own test; in the vertical (and default) direction the
    renderer hands the whole canvas to the library's [multiline] and the
    result is whatever that returns. *)
Theorem colorize_blank_rows :
  forall (gradient : list (option (list Z)) -> completion GradientFn)
         (asciiArt : list Z) (palette : list (list Z)) (direction out : list Z),
    colorize gradient asciiArt palette direction = Normal out ->
    (direction = JS.lit "horizontal" \/ direction = JS.lit "diagonal" ->
     exists rows : list (list Z),
       out = JS.join_nl rows
       /\ length rows = length (JS.split_nl asciiArt)
       /\ forall (i : nat) (line : list Z),
            JS.split_nl asciiArt !! i = Some line ->
            JS.is_blank line = true ->
            rows !! i = Some line)
    /\ (direction <> JS.lit "horizontal" -> direction <> JS.lit "diagonal" ->
        exists gradientFn,
          gradient (map Some palette) = Normal gradientFn
          /\ out = multiline gradientFn asciiArt).
Proof.
  intros gradient asciiArt palette direction out Hout.
  unfold colorize in Hout. unfold mbind, completion_bind, cbind in Hout.
  destruct (gradient (map Some palette)) as [gradientFn | e] eqn:Eg;
    [| discriminate].
  split.
  - intros Hdir.
    destruct (decide (direction = JS.lit "horizontal")) as [Hh | Hh].
    + injection Hout as <-.
      exists (colorizeHorizontal gradientFn asciiArt).
      destruct (colorizeHorizontal_rows gradientFn asciiArt) as [Hlen Hrow].
      split; [reflexivity |]. split; [exact Hlen |].
      intros i line Hline Hblank. rewrite (Hrow i line Hline), Hblank. reflexivity.
    + destruct (decide (direction = JS.lit "diagonal")) as [Hd | Hd];
        [| destruct Hdir; contradiction].
      destruct (colorizeDiagonal gradient palette asciiArt) as [rows | e] eqn:Er;
        [| discriminate].
      injection Hout as <-. exists rows.
      destruct (colorizeDiagonal_rows gradient palette asciiArt rows Er)
        as [Hlen Hrow].
      split; [reflexivity |]. split; [exact Hlen |].
      intros i line Hline Hblank. specialize (Hrow i line Hline).
      rewrite Hblank in Hrow. exact Hrow.
  - intros Hh Hd. exists gradientFn. split; [reflexivity |].
    destruct (decide (direction = JS.lit "horizontal")); [contradiction |].
    destruct (decide (direction = JS.lit "diagonal")); [contradiction |].
    injection Hout as <-. reflexivity.
Qed.

Lemma colorize_blank_rows_witness :
  exists rows : list (list Z),
    JS.join_nl [[27; ink]; [32; 32]; [27; ink]] = JS.join_nl rows
    /\ rows !! 1%nat = Some [32; 32].
Proof.
  destruct (colorize_blank_rows sample_gradient
              (JS.join_nl [[ink]; [32; 32]; [ink]])
              [JS.lit "#f00"; JS.lit "#00f"]
              (JS.lit "horizontal")
              (JS.join_nl [[27; ink]; [32; 32]; [27; ink]]))
    as [Hguard _].
  - vm_compute. reflexivity.
  - destruct Hguard as (rows & Hout & _ & Hrow); [left; reflexivity |].
    exists rows. split; [exact Hout |].
    apply Hrow; reflexivity.
Defined.

(** * Further properties of the renderer *)

(** ** Splitting and joining lines *)

Lemma split_nl_aux_no_lf (cur r : list Z) :
  no_lf r -> JS.split_nl_aux cur r = [rev cur ++ r].
Proof.
  revert cur. induction r as [|u r IH]; intros cur Hr; simpl.
  - rewrite app_nil_r. reflexivity.
  - destruct (Z.eqb_spec u 10) as [-> | _]; [exfalso; apply Hr; left; reflexivity |].
    rewrite IH by (intros H; apply Hr; right; exact H).
    simpl. rewrite <- app_assoc. reflexivity.
Qed.

Lemma split_nl_aux_app (cur r s : list Z) :
  no_lf r ->
  JS.split_nl_aux cur (r ++ 10 :: s) = (rev cur ++ r) :: JS.split_nl_aux [] s.
Proof.
  revert cur. induction r as [|u r IH]; intros cur Hr; simpl.
  - rewrite app_nil_r. reflexivity.
  - destruct (Z.eqb_spec u 10) as [-> | _]; [exfalso; apply Hr; left; reflexivity |].
    rewrite IH by (intros H; apply Hr; right; exact H).
    simpl. rewrite <- app_assoc. reflexivity.
Qed.

(** Rows without line feeds survive [join('\n')] then [split('\n')]. *)
Lemma split_nl_join_nl (rows : list (list Z)) :
  rows <> [] -> Forall no_lf rows -> JS.split_nl (JS.join_nl rows) = rows.
Proof.
  intros Hne Hrows. unfold JS.split_nl, JS.join_nl.
  induction Hrows as [|r rows Hr Hrows IH]; [congruence |].
  destruct rows as [|r' rows'].
  - simpl. apply split_nl_aux_no_lf. exact Hr.
  - rewrite join_cons by discriminate.
    change ([10] ++ JS.join [10] (r' :: rows')) with (10 :: JS.join [10] (r' :: rows')).
    rewrite split_nl_aux_app by exact Hr. simpl rev. simpl app at 1.
    f_equal. apply IH. discriminate.
Qed.

Lemma split_nl_aux_length (cur s : list Z) :
  length (JS.split_nl_aux cur s) = S (count_lf s).
Proof.
  unfold count_lf. revert cur. induction s as [|u s IH]; intros cur; simpl.
  - reflexivity.
  - destruct (Z.eqb_spec u 10) as [-> | Hne].
    + destruct (Z.eq_dec 10 10); [| congruence]. simpl. rewrite IH. reflexivity.
    + destruct (Z.eq_dec u 10); [congruence |]. apply IH.
Qed.

Lemma count_lf_app (a b : list Z) : count_lf (a ++ b) = (count_lf a + count_lf b)%nat.
Proof. apply count_occ_app. Qed.

Lemma count_lf_no_lf (s : list Z) : no_lf s <-> count_lf s = 0%nat.
Proof. unfold no_lf, count_lf. apply count_occ_not_In. Qed.

(** The line feeds of a joined block: one per seam, plus those of the rows. *)
Lemma count_lf_join_nl (rows : list (list Z)) :
  count_lf (JS.join_nl rows)
  = (pred (length rows) + list_sum (map count_lf rows))%nat.
Proof.
  unfold JS.join_nl. induction rows as [|r rows IH]; [reflexivity |].
  destruct rows as [|r' rows'].
  - simpl. lia.
  - rewrite join_cons by discriminate. rewrite !count_lf_app, IH.
    change (count_lf [10]) with 1%nat. simpl. lia.
Qed.

(** ** [containsJapanese], unit by unit *)

Lemma containsJapanese_units (text : list Z) :
  containsJapanese text = existsb in_japanese_range text.
Proof.
  unfold containsJapanese.
  induction text as [| u | u v rest E IH | u v rest E IH] using Array_from_ind.
  - reflexivity.
  - reflexivity.
  - rewrite Array_from_pair by exact E. cbn [existsb]. rewrite IH.
    apply andb_true_iff in E as [Hu Hv].
    unfold JS.is_high_surrogate in Hu. unfold JS.is_low_surrogate in Hv.
    rewrite (in_japanese_range_false u), (in_japanese_range_false v) by lia.
    reflexivity.
  - rewrite Array_from_single by exact E. cbn [existsb] in IH |- *.
    rewrite IH. reflexivity.
Qed.

(** X1. [containsJapanese] does not depend on how the text is cut into
    characters: it is the test of the three ranges on some UTF-16 code
    unit, so the answer for a concatenation is the disjunction of the
    answers for the parts, also when the cut falls inside a surrogate
    pair. *)
Theorem containsJapanese_append :
  forall a b : list Z,
    containsJapanese (a ++ b) = containsJapanese a || containsJapanese b.
Proof.
  intros a b. rewrite !containsJapanese_units. apply existsb_app.
Qed.

(** ** Placeholder patterns and the fallback canvas *)

Lemma patterns_table_checked :
  forallb (fun entry : list Z * list (list Z) =>
             (length (fst entry) =? 3)%nat
             && (length (snd entry) =? 10)%nat
             && forallb (forallb is_cell) (snd entry))
          patterns_table = true.
Proof. vm_compute. reflexivity. Qed.

Lemma is_cell_no_lf (row : list Z) : forallb is_cell row = true -> no_lf row.
Proof.
  intros H Hin. rewrite forallb_forall in H. apply H in Hin. discriminate Hin.
Qed.

Lemma curated_pattern (char : list Z) (rows : list (list Z)) :
  lookup_pattern patterns_table char = Some rows ->
  length char = 3%nat /\ length rows = 10%nat
  /\ Forall (fun row : list Z => forallb is_cell row = true) rows.
Proof.
  intros H. apply lookup_pattern_In in H.
  pose proof patterns_table_checked as Hc. rewrite forallb_forall in Hc.
  apply Hc in H. cbn [fst snd] in H.
  apply andb_true_iff in H as [H Hrows]. apply andb_true_iff in H as [Hk Hlen].
  split; [apply Nat.eqb_eq, Hk |]. split; [apply Nat.eqb_eq, Hlen |].
  apply Forall_forall. intros row Hrow. rewrite forallb_forall in Hrows.
  apply list_elem_of_In, Hrows in Hrow. exact Hrow.
Qed.

(** No name of a member of [Object.prototype] is a key of the literal. *)
Lemma members_not_own :
  forallb (fun entry : list Z * option Z =>
             match lookup_pattern patterns_table (fst entry) with
             | Some _ => false
             | None => true
             end)
          object_prototype_members = true.
Proof. vm_compute. reflexivity. Qed.

(** The cell of a row other than the middle one is made of ink literals
    and blanks and has the width of its row; the middle cell is the
    generic one around the character. *)
Lemma pattern_cell_cases (row : nat) (char : list Z) :
  (row < 10)%nat ->
  generic_pattern char !! row = Some (pattern_cell row char)
  /\ ((row <> 4%nat
       /\ length (pattern_cell row char) = nth row generic_widths 0%nat
       /\ forallb is_cell (pattern_cell row char) = true)
      \/ (row = 4%nat
          /\ pattern_cell row char = art "#  # " ++ char ++ art "  #  #")).
Proof.
  intros Hrow. unfold pattern_cell.
  do 4 (destruct row as [|row];
        [split; [reflexivity |]; left;
         split; [discriminate | split; reflexivity] |]).
  destruct row as [|row];
    [split; [reflexivity |]; right; split; reflexivity |].
  do 5 (destruct row as [|row];
        [split; [reflexivity |]; left;
         split; [discriminate | split; reflexivity] |]).
  lia.
Qed.

(** X2. For every character of a text (an element of [Array.from]) the
    [patterns] literal has no entry, its keys being three code units long,
    and the result is the generic pattern: 10 rows of 28, 16, 24, 20,
    [19 + char.length], 20, 24, 16, 16 and 28 code units, the middle one
    holding the character itself, the others made of the three-unit ink
    literal and blanks. A string that is a key of the literal gets its 10
    curated rows, made of the same units; a string that names a member of
    [Object.prototype] gets that member, which is no array of rows. *)
Theorem getJapaneseCharPattern_shape :
  (forall text char : list Z,
      In char (JS.Array_from text) ->
      lookup_pattern patterns_table char = None
      /\ exists rows : list (list Z),
           getJapaneseCharPattern char = Pattern rows
           /\ map length rows
              = [28; 16; 24; 20; 19 + length char; 20; 24; 16; 16; 28]%nat
           /\ rows !! 4%nat = Some (art "#  # " ++ char ++ art "  #  #")
           /\ (forall (row : nat) (cells : list Z),
                 rows !! row = Some cells -> row <> 4%nat ->
                 forallb is_cell cells = true))
  /\ (forall (char : list Z) (rows : list (list Z)),
        lookup_pattern patterns_table char = Some rows ->
        length char = 3%nat
        /\ getJapaneseCharPattern char = Pattern rows
        /\ length rows = 10%nat
        /\ Forall (fun row : list Z => forallb is_cell row = true) rows)
  /\ (forall (char : list Z) (len : option Z),
        lookup_pattern object_prototype_members char = Some len ->
        getJapaneseCharPattern char = Member len).
Proof.
  split; [| split].
  - intros text char Hin.
    assert (Hc : is_code_point char).
    { pose proof (Array_from_code_points text) as H. rewrite Forall_forall in H.
      apply H, list_elem_of_In, Hin. }
    destruct (getJapaneseCharPattern_code_point char Hc) as [Hown Hgen].
    split; [exact Hown |]. exists (generic_pattern char).
    split; [exact Hgen |]. split.
    { unfold generic_pattern. cbn [map]. rewrite !length_app.
      repeat (f_equal; try (simpl; lia)). }
    split; [reflexivity |].
    intros row cells Hcells Hne.
    assert (Hrow : (row < 10)%nat)
      by (apply lookup_lt_Some in Hcells; exact Hcells).
    destruct (pattern_cell_cases row char Hrow) as [Hc' [(_ & _ & Hok) | (H4 & _)]];
      [| contradiction].
    rewrite Hc' in Hcells. injection Hcells as <-. exact Hok.
  - intros char rows Hrows.
    destruct (curated_pattern char rows Hrows) as (Hk & Hlen & Hcells).
    repeat split; try assumption.
    unfold getJapaneseCharPattern. rewrite Hrows. reflexivity.
  - intros char len Hlen.
    pose proof members_not_own as Hm. rewrite forallb_forall in Hm.
    specialize (Hm _ (lookup_pattern_In _ _ _ Hlen)). cbn [fst] in Hm.
    unfold getJapaneseCharPattern.
    destruct (lookup_pattern patterns_table char); [discriminate Hm |].
    rewrite Hlen. reflexivity.
Qed.

Lemma getJapaneseCharPattern_shape_witness :
  (lookup_pattern patterns_table [0x3042] = None
   /\ exists rows : list (list Z),
        getJapaneseCharPattern [0x3042] = Pattern rows
        /\ map length rows = [28; 16; 24; 20; 20; 20; 24; 16; 16; 28]%nat)
  /\ (exists rows : list (list Z),
        getJapaneseCharPattern [0x201E; 0x0100; 0x0101] = Pattern rows
        /\ length rows = 10%nat)
  /\ getJapaneseCharPattern (JS.lit "constructor") = Member (Some 1).
Proof.
  destruct getJapaneseCharPattern_shape as (Htext & Hown & Hmember).
  split; [| split].
  - destruct (Htext [0x3042; 0x3044] [0x3042])
      as (Hnone & rows & Hrows & Hlen & _); [left; reflexivity |].
    split; [exact Hnone |]. exists rows. split; [exact Hrows | exact Hlen].
  - destruct (lookup_pattern patterns_table [0x201E; 0x0100; 0x0101])
      as [rows |] eqn:E; [| discriminate E].
    destruct (Hown _ rows E) as (_ & Hrows & Hlen & _).
    exists rows. split; [exact Hrows | exact Hlen].
  - apply Hmember. reflexivity.
Defined.

Lemma createJapaneseArt_eq (text : list Z) :
  text <> [] ->
  createJapaneseArt text
  = Normal (map (fun row =>
                   JS.join [32] (map (pattern_cell row) (JS.Array_from text)))
                (seq 0 10)).
Proof.
  intros Hne. unfold createJapaneseArt. rewrite Array_from_patterns.
  destruct (JS.Array_from text) as [|char chars] eqn:E.
  - exfalso. apply Hne. rewrite <- (Array_from_concat text), E. reflexivity.
  - cbn [map pattern_height]. change (length (generic_pattern char)) with 10%nat.
    f_equal.
    apply map_ext_in. intros row Hrow. apply in_seq in Hrow.
    rewrite append_cells_join. cbn [app].
    assert (Hext : forall cs : list (list Z),
               map (fun pattern => pattern_row pattern row)
                   (map (fun c => Pattern (generic_pattern c)) cs)
               = map (pattern_cell row) cs).
    { intros cs. rewrite map_map. apply map_ext. intros c.
      destruct (pattern_cell_cases row c ltac:(lia)) as [Hc _].
      cbn [pattern_row]. rewrite Hc. reflexivity. }
    f_equal. exact (Hext (char :: chars)).
Qed.

Lemma join_length (sep : list Z) (cells : list (list Z)) :
  length (JS.join sep cells)
  = (cells_length cells + pred (length cells) * length sep)%nat.
Proof.
  unfold cells_length. induction cells as [|c cells IH]; [reflexivity |].
  destruct cells as [|c' cells'].
  - simpl. lia.
  - rewrite join_cons by discriminate. rewrite !length_app, IH. simpl. lia.
Qed.

Lemma Array_from_units_length (text : list Z) :
  Forall (fun char : list Z => length char = 1%nat) (JS.Array_from text) ->
  length (JS.Array_from text) = length text.
Proof.
  intros H. rewrite <- (Array_from_concat text) at 2.
  induction H as [|c cs Hc Hcs IH]; [reflexivity |].
  simpl. rewrite length_app, Hc, IH. reflexivity.
Qed.

Lemma cells_length_cons (c : list Z) (cs : list (list Z)) :
  cells_length (c :: cs) = (length c + cells_length cs)%nat.
Proof. reflexivity. Qed.

Lemma cells_length_units (row : nat) (chars : list (list Z)) :
  (row < 10)%nat ->
  Forall (fun char : list Z => length char = 1%nat) chars ->
  cells_length (map (pattern_cell row) chars)
  = (nth row generic_widths 0%nat * length chars)%nat.
Proof.
  intros Hrow Hunits.
  induction Hunits as [|c cs Hc Hcs IH]; [symmetry; apply Nat.mul_0_r |].
  rewrite map_cons, cells_length_cons, IH.
  cbn [length]. rewrite Nat.mul_succ_r.
  destruct (pattern_cell_cases row c Hrow) as [_ [(_ & Hl & _) | (-> & Hgen)]].
  - rewrite Hl. lia.
  - rewrite Hgen, !length_app, Hc.
    change (nth 4 generic_widths 0%nat) with 20%nat.
    change (length (art "#  # ")) with 9%nat.
    change (length (art "  #  #")) with 10%nat. lia.
Qed.

(** X3. For a non-empty text the fallback compositor returns normally
    with exactly 10 rows, row [row] being the generic pattern rows of that
    index of the characters, joined by single blanks. When every character
    is one code unit, a row of pattern width [w] has [(w + 1) * n - 1] code
    units for a text of [n] characters, the widths being 28, 16, 24, 20,
    20, 20, 24, 16, 16 and 28: the rows differ in length. *)
Theorem createJapaneseArt_rows :
  forall text : list Z,
    text <> [] ->
    exists artLines : list (list Z),
      createJapaneseArt text = Normal artLines
      /\ length artLines = 10%nat
      /\ (forall row : nat,
            (row < 10)%nat ->
            artLines !! row
            = Some (JS.join [32]
                      (map (fun char => default [] (generic_pattern char !! row))
                           (JS.Array_from text))))
      /\ (Forall (fun char : list Z => length char = 1%nat) (JS.Array_from text) ->
          map length artLines
          = map (fun w => ((w + 1) * length text - 1)%nat) generic_widths).
Proof.
  intros text Hne. eexists. split; [apply createJapaneseArt_eq, Hne |].
  split; [rewrite length_map, length_seq; reflexivity |]. split.
  - intros row Hrow. rewrite lookup_map, lookup_seq_lt by exact Hrow. reflexivity.
  - intros Hunits. rewrite map_map.
    rewrite (map_ext_in _ (fun row => ((nth row generic_widths 0 + 1) * length text - 1)%nat)).
    + reflexivity.
    + intros row Hrow. apply in_seq in Hrow.
      rewrite join_length, length_map.
      rewrite (cells_length_units row _ ltac:(lia) Hunits).
      rewrite (Array_from_units_length text Hunits). simpl length.
      destruct text; [congruence | simpl length; lia].
Qed.

Lemma createJapaneseArt_rows_witness :
  exists artLines : list (list Z),
    createJapaneseArt [0x65E5; 0x672C] = Normal artLines
    /\ map length artLines = [57; 33; 49; 41; 41; 41; 49; 33; 33; 57]%nat.
Proof.
  destruct (createJapaneseArt_rows [0x65E5; 0x672C]) as (artLines & H & _ & _ & Hw);
    [discriminate |].
  exists artLines. split; [exact H |].
  apply Hw. repeat constructor.
Defined.

Lemma count_lf_join (sep : list Z) (cells : list (list Z)) :
  count_lf (JS.join sep cells)
  = (list_sum (map count_lf cells) + pred (length cells) * count_lf sep)%nat.
Proof.
  induction cells as [|c cells IH]; [reflexivity |].
  destruct cells as [|c' cells'].
  - simpl. lia.
  - rewrite join_cons by discriminate. rewrite !count_lf_app, IH. simpl. lia.
Qed.

Lemma list_sum_count_lf_concat (chars : list (list Z)) :
  list_sum (map count_lf chars) = count_lf (concat chars).
Proof.
  induction chars as [|c cs IH]; [reflexivity |].
  simpl. rewrite count_lf_app, IH. reflexivity.
Qed.

Lemma list_sum_zero {A} (f : A -> nat) (l : list A) :
  (forall x, f x = 0%nat) -> list_sum (map f l) = 0%nat.
Proof.
  intros H. induction l as [|x l IH]; [reflexivity |].
  simpl. rewrite H, IH. reflexivity.
Qed.

(** Only the middle cell of a pattern can hold a line feed: the one of the
    character itself. *)
Lemma pattern_cell_count_lf (row : nat) (char : list Z) :
  (row < 10)%nat ->
  count_lf (pattern_cell row char)
  = if (row =? 4)%nat then count_lf char else 0%nat.
Proof.
  intros Hrow. unfold pattern_cell.
  do 4 (destruct row as [|row]; [reflexivity |]).
  destruct row as [|row].
  - change (count_lf (art "#  # " ++ char ++ art "  #  #") = count_lf char).
    rewrite !count_lf_app.
    change (count_lf (art "#  # ")) with 0%nat.
    change (count_lf (art "  #  #")) with 0%nat. lia.
  - do 5 (destruct row as [|row]; [reflexivity |]). lia.
Qed.

Lemma createJapaneseArt_row_count_lf (text : list Z) (row : nat) :
  (row < 10)%nat ->
  count_lf (JS.join [32] (map (pattern_cell row) (JS.Array_from text)))
  = if (row =? 4)%nat then count_lf text else 0%nat.
Proof.
  intros Hrow. rewrite count_lf_join, map_map.
  change (count_lf [32]) with 0%nat. rewrite Nat.mul_0_r, Nat.add_0_r.
  destruct (row =? 4)%nat eqn:E.
  - rewrite <- (Array_from_concat text) at 2.
    rewrite <- list_sum_count_lf_concat. f_equal. apply map_ext. intros c.
    rewrite pattern_cell_count_lf by exact Hrow. rewrite E. reflexivity.
  - apply list_sum_zero. intros c.
    rewrite pattern_cell_count_lf by exact Hrow. rewrite E. reflexivity.
Qed.

(** X4. The fallback canvas of a non-empty text, once joined and split
    again as [renderJapaneseText] does before colouring, has 10 lines plus
    one for every line feed of the text: an unknown character is embedded
    as it is in the middle row of its pattern. *)
Theorem createJapaneseArt_line_count :
  forall text : list Z,
    text <> [] ->
    exists artLines : list (list Z),
      createJapaneseArt text = Normal artLines
      /\ length (JS.split_nl (JS.join_nl artLines)) = (10 + count_lf text)%nat.
Proof.
  intros text Hne. eexists. split; [apply createJapaneseArt_eq, Hne |].
  unfold JS.split_nl. rewrite split_nl_aux_length, count_lf_join_nl.
  rewrite length_map, length_seq, map_map.
  rewrite (map_ext_in _ (fun row => if (row =? 4)%nat then count_lf text else 0%nat)).
  - simpl. lia.
  - intros row Hrow. apply in_seq in Hrow.
    apply createJapaneseArt_row_count_lf. lia.
Qed.

Lemma createJapaneseArt_line_count_witness :
  exists artLines : list (list Z),
    createJapaneseArt [0x65E5; 10; 0x672C] = Normal artLines
    /\ length (JS.split_nl (JS.join_nl artLines)) = 11%nat.
Proof.
  destruct (createJapaneseArt_line_count [0x65E5; 10; 0x672C])
    as (artLines & H & Hn); [discriminate |].
  exists artLines. split; [exact H | exact Hn].
Defined.

(** ** The block builder, row by row *)

Section BlockRows.

Variable stringWidth : list Z -> Z.

Lemma paddingOf_eq (char : list Z) :
  paddingOf stringWidth char
  = blockWidthOf stringWidth char - charWidthOf stringWidth char.
Proof.
  unfold paddingOf, blockWidthOf. lia.
Qed.

Lemma block_cell_length (row : nat) (char : list Z) :
  (row < 5)%nat ->
  Z.of_nat (length (block_cell stringWidth row char))
  = if (row =? 2)%nat
    then blockWidthOf stringWidth char - charWidthOf stringWidth char
         + Z.of_nat (length char)
    else blockWidthOf stringWidth char.
Proof.
  intros Hrow. pose proof (blockWidthOf_min stringWidth char) as Hmin.
  destruct row as [|[|[|[|[|row]]]]]; try lia; cbn [Nat.eqb].
  - apply block_cell_border_length.
  - cbn [block_cell]. rewrite !length_app, repeat_length. simpl. lia.
  - rewrite block_cell_middle_length, paddingOf_eq. reflexivity.
  - cbn [block_cell]. rewrite !length_app, repeat_length. simpl. lia.
  - cbn [block_cell]. rewrite repeat_length. lia.
Qed.

Lemma count_lf_repeat (c : Z) (n : nat) : c <> 10 -> count_lf (List.repeat c n) = 0%nat.
Proof.
  intros Hc. apply count_lf_no_lf. intros Hin. apply repeat_spec in Hin. congruence.
Qed.

Lemma block_cell_count_lf (row : nat) (char : list Z) :
  (row < 5)%nat ->
  count_lf (block_cell stringWidth row char)
  = if (row =? 2)%nat then count_lf char else 0%nat.
Proof.
  intros Hrow.
  destruct row as [|[|[|[|[|row]]]]]; try lia; cbn [Nat.eqb block_cell];
    rewrite ?count_lf_app, ?count_lf_repeat by (unfold ink; lia);
    try reflexivity.
  simpl. lia.
Qed.

Lemma cells_length_Z (f : list Z -> list Z) (g : list Z -> Z) (chars : list (list Z)) :
  (forall char, Z.of_nat (length (f char)) = g char) ->
  Z.of_nat (cells_length (map f chars)) = sum_Z (map g chars).
Proof.
  intros H. induction chars as [|c cs IH]; [reflexivity |].
  rewrite map_cons, cells_length_cons, Nat2Z.inj_add, IH, H. reflexivity.
Qed.

End BlockRows.

(** X5. In the block builder the four border rows (0, 1, 3 and 4) always
    have the same number of code units: the sum of the characters' block
    widths plus two blanks between neighbours. The middle row has, for each
    character, [charWidth] ink cells fewer and the character's own code
    units instead. *)
Theorem createJapaneseBlock_row_lengths :
  forall (stringWidth : list Z -> Z) (text : list Z) (row : nat) (line : list Z),
    createJapaneseBlock_lines stringWidth text !! row = Some line ->
    let chars := JS.Array_from text in
    let seams := 2 * Z.of_nat (pred (length chars)) in
    Z.of_nat (length line)
    = if (row =? 2)%nat
      then sum_Z (map (fun char =>
                         blockWidthOf stringWidth char - charWidthOf stringWidth char
                         + Z.of_nat (length char))
                      chars)
           + seams
      else sum_Z (map (blockWidthOf stringWidth) chars) + seams.
Proof.
  intros stringWidth text row line Hline chars seams.
  rewrite createJapaneseBlock_lines_eq in Hline.
  assert (Hrow : (row < 5)%nat).
  { apply lookup_lt_Some in Hline. rewrite length_map, length_seq in Hline. exact Hline. }
  rewrite lookup_map, lookup_seq_lt in Hline by exact Hrow.
  injection Hline as <-. cbn [Nat.add].
  rewrite join_length, length_map, Nat2Z.inj_add, Nat2Z.inj_mul.
  fold chars. change (Z.of_nat (length [32; 32])) with 2.
  destruct (row =? 2)%nat eqn:E.
  - rewrite (cells_length_Z
               (block_cell stringWidth row)
               (fun char => blockWidthOf stringWidth char - charWidthOf stringWidth char
                            + Z.of_nat (length char))).
    + subst seams. lia.
    + intros char. rewrite block_cell_length by exact Hrow. rewrite E. reflexivity.
  - rewrite (cells_length_Z (block_cell stringWidth row) (blockWidthOf stringWidth)).
    + subst seams. lia.
    + intros char. rewrite block_cell_length by exact Hrow. rewrite E. reflexivity.
Qed.

Lemma createJapaneseBlock_row_lengths_witness :
  Z.of_nat (length (List.repeat ink 6 ++ [32; 32] ++ List.repeat ink 6)) = 14.
Proof.
  exact (createJapaneseBlock_row_lengths sample_stringWidth [0x65E5; 0x672C] 0
           (List.repeat ink 6 ++ [32; 32] ++ List.repeat ink 6) eq_refl).
Defined.

(** X6. The text the block builder returns has 5 lines plus one for every
    line feed of the input: a line feed in the text is embedded in the
    middle row and breaks it. *)
Theorem createJapaneseBlock_line_count :
  forall (stringWidth : list Z -> Z) (text : list Z),
    length (JS.split_nl (createJapaneseBlock stringWidth text))
    = (5 + count_lf text)%nat.
Proof.
  intros stringWidth text. unfold createJapaneseBlock, JS.split_nl.
  rewrite split_nl_aux_length, count_lf_join_nl, createJapaneseBlock_lines_eq.
  rewrite length_map, length_seq, map_map.
  rewrite (map_ext_in _ (fun row => if (row =? 2)%nat then count_lf text else 0%nat)).
  - simpl. lia.
  - intros row Hrow. apply in_seq in Hrow.
    rewrite count_lf_join, map_map.
    change (count_lf [32; 32]) with 0%nat. rewrite Nat.mul_0_r, Nat.add_0_r.
    destruct (row =? 2)%nat eqn:E.
    + rewrite <- (Array_from_concat text) at 2.
      rewrite <- list_sum_count_lf_concat. f_equal. apply map_ext. intros c.
      rewrite block_cell_count_lf by lia. rewrite E. reflexivity.
    + apply list_sum_zero. intros c.
      rewrite block_cell_count_lf by lia. rewrite E. reflexivity.
Qed.

(** ** The font path: resolver, glyph lookup, composition *)

Lemma mapM_map {A B} (f : A -> completion B) (g : A -> B) (l : list A) :
  (forall x, f x = Normal (g x)) -> mapM f l = Normal (map g l).
Proof.
  intros H. induction l as [|x l IH]; [reflexivity |].
  cbn [mapM map]. unfold mbind, completion_bind, cbind in *.
  rewrite H, IH. reflexivity.
Qed.

Lemma mapM_total {A B} (f : A -> completion B) (l : list A) :
  (forall x, exists y, f x = Normal y) -> exists ys, mapM f l = Normal ys.
Proof.
  intros H. induction l as [|x l [ys IH]]; [eexists; reflexivity |].
  destruct (H x) as [y Hy]. exists (y :: ys).
  cbn [mapM]. unfold mbind, completion_bind, cbind in *.
  rewrite Hy, IH. reflexivity.
Qed.

Lemma join_nonempty (sep r : list Z) (rest : list (list Z)) :
  r <> [] -> JS.join sep (r :: rest) <> [].
Proof.
  intros Hr. destruct rest as [|r' rest']; [exact Hr |].
  rewrite join_cons by discriminate. destruct r; [congruence | discriminate].
Qed.

Lemma join_two_nonempty (sep r r' : list Z) (rest : list (list Z)) :
  sep <> [] -> JS.join sep (r :: r' :: rest) <> [].
Proof.
  intros Hsep. rewrite join_cons by discriminate.
  destruct r; [| discriminate]. destruct sep; [congruence | discriminate].
Qed.

Lemma split_nl_nonempty (s : list Z) : (1 <= length (JS.split_nl s))%nat.
Proof. unfold JS.split_nl. rewrite split_nl_aux_length. lia. Qed.

Section FontPathFacts.

Variable jconv_encode : list Z -> list Z -> completion (option (list Z)).
Variable Encoding_convert : list Z -> list Z -> completion (option (list Z)).
Variable st : FontState.

Lemma unicodeToJisHexCode_hit (char hexCode : list Z) :
  unicodeToJisHexCode jconv_encode Encoding_convert st char = Normal (Some hexCode) ->
  is_Some (jisCharacterMap st !! hexCode)
  /\ In (Some hexCode) (scheme_candidates jconv_encode Encoding_convert char).
Proof.
  unfold unicodeToJisHexCode, scheme_candidates.
  rewrite try_conversions_first_hit.
  destruct (jconv_encode char (JS.lit "JIS")) as [a | e]; simpl; [| discriminate].
  destruct (stored st (jis_candidate a)) as [h |] eqn:Ea; simpl.
  { intros [= ->]. apply stored_key in Ea as [-> Hk]. split; [exact Hk | left; reflexivity]. }
  destruct (jconv_encode char (JS.lit "SJIS")) as [b | e]; simpl; [| discriminate].
  destruct (stored st (pair_candidate b)) as [h |] eqn:Eb; simpl.
  { intros [= ->]. apply stored_key in Eb as [-> Hk].
    split; [exact Hk | right; left; reflexivity]. }
  intros [= H].
  apply (first_hit_key st
           [ pair_candidate (miss_on_error (Encoding_convert char (JS.lit "JISX0208")));
             pair_candidate (miss_on_error (Encoding_convert char (JS.lit "SJIS"))) ])
    in H as [Hin Hk].
  split; [exact Hk |].
  right. right. exact Hin.
Qed.

(** The glyph lookup never throws, and what it returns is a non-empty
    glyph of the store, kept under the resolved codepoint. *)
Lemma renderJisCharacter_cases (char : list Z) :
  exists r,
    renderJisCharacter jconv_encode Encoding_convert st char = Normal r
    /\ forall glyph,
         r = Some glyph ->
         glyph <> [] /\ no_font st = false
         /\ exists hexCode,
              unicodeToJisHexCode jconv_encode Encoding_convert st char
              = Normal (Some hexCode)
              /\ jisCharacterMap st !! hexCode = Some glyph.
Proof.
  unfold renderJisCharacter.
  destruct (no_font st) eqn:Hfont; [exists None; split; [reflexivity | discriminate] |].
  destruct (resolve_normal jconv_encode Encoding_convert st char) as [code Hcode].
  rewrite Hcode. unfold mbind, completion_bind, cbind, try_catch.
  destruct code as [[|u hexCode] |].
  - exists None. split; [reflexivity | discriminate].
  - destruct (jisCharacterMap st !! (u :: hexCode)) as [[|g glyph] |] eqn:Eg; simpl.
    + exists None. split; [reflexivity | discriminate].
    + exists (Some (g :: glyph)). split; [reflexivity |].
      intros glyph' [= <-]. split; [discriminate |]. split; [reflexivity |].
      exists (u :: hexCode). split; [reflexivity | exact Eg].
    + exists None. split; [reflexivity | discriminate].
  - exists None. split; [reflexivity | discriminate].
Qed.

(** One character rendered: its glyph, or its placeholder joined. *)
Lemma rendered_char (char : list Z) :
  is_code_point char ->
  exists rendered : list Z,
    (result ← renderJisCharacter jconv_encode Encoding_convert st char;
     if truthy result then Normal (default [] result)
     else pattern_join (getJapaneseCharPattern char))
    = Normal rendered
    /\ rendered <> []
    /\ (renderJisCharacter jconv_encode Encoding_convert st char = Normal None ->
        rendered = JS.join_nl (generic_pattern char)).
Proof.
  intros Hchar.
  destruct (getJapaneseCharPattern_code_point char Hchar) as [_ Hgen].
  rewrite Hgen. cbn [pattern_join].
  destruct (renderJisCharacter_cases char) as (r & Hr & Hglyph).
  rewrite Hr. unfold mbind, completion_bind, cbind.
  destruct r as [glyph |].
  - destruct (Hglyph glyph eq_refl) as (Hne & _).
    destruct glyph as [|g glyph]; [congruence |].
    eexists. split; [reflexivity |]. split; [discriminate | discriminate].
  - eexists. split; [reflexivity |]. split; [| reflexivity].
    unfold generic_pattern. apply join_two_nonempty. discriminate.
Qed.

Lemma combineLines_nonempty (g1 g2 : list Z) (gs : list (list Z)) :
  JS.join_nl (combineLines (map JS.split_nl (g1 :: g2 :: gs))) <> [].
Proof.
  unfold combineLines.
  assert (Hmax : (1 <= maxHeightOf (map JS.split_nl (g1 :: g2 :: gs)))%nat).
  { unfold maxHeightOf. pose proof (split_nl_nonempty g1) as H1.
    etransitivity; [exact H1 |].
    apply max_list_elem_of_le. left. }
  destruct (maxHeightOf (map JS.split_nl (g1 :: g2 :: gs))) as [|h]; [lia |].
  cbn [seq map]. apply join_nonempty.
  rewrite append_cells_join. cbn [app]. apply join_two_nonempty. discriminate.
Qed.

(** The font path never throws; it gives nothing exactly when no font is
    loaded or the text is empty, and otherwise a non-empty canvas. *)
Lemma renderJapaneseWithJisFont_cases (text : list Z) :
  exists r,
    renderJapaneseWithJisFont jconv_encode Encoding_convert st text = Normal r
    /\ (r = None <-> no_font st = true \/ text = [])
    /\ (forall asciiArt, r = Some asciiArt -> asciiArt <> []).
Proof.
  unfold renderJapaneseWithJisFont.
  destruct (no_font st) eqn:Hfont.
  { exists None. split; [reflexivity |]. split; [| discriminate].
    split; [left; reflexivity | reflexivity]. }
  set (f := fun char : list Z =>
              result ← renderJisCharacter jconv_encode Encoding_convert st char;
              if truthy result then Normal (default [] result)
              else pattern_join (getJapaneseCharPattern char)).
  assert (Hf : forall char, is_code_point char ->
                            exists y, f char = Normal y /\ y <> []).
  { intros char Hc. destruct (rendered_char char Hc) as (y & Hy & Hne & _). eauto. }
  assert (Hall : forall chars, Forall is_code_point chars ->
               exists ys,
                 mapM f chars = Normal ys /\ length ys = length chars
                 /\ Forall (fun y => y <> []) ys).
  { intros chars Hchars.
    induction Hchars as [|c cs Hc Hcs (ys & Hys & Hlen & Hne)].
    - exists []. repeat split; constructor.
    - destruct (Hf c Hc) as (y & Hy & Hyne). exists (y :: ys).
      cbn [mapM]. unfold mbind, completion_bind, cbind in *.
      rewrite Hy, Hys. split; [reflexivity |]. split; [simpl; lia |].
      constructor; assumption. }
  destruct (Hall (JS.Array_from text) (Array_from_code_points text))
    as (ys & Hys & Hlen & Hne).
  rewrite Hys. unfold mbind, completion_bind, cbind.
  assert (Htext : text = [] <-> ys = []).
  { split.
    - intros ->. destruct ys; [reflexivity | discriminate Hlen].
    - intros ->. rewrite <- (Array_from_concat text).
      destruct (JS.Array_from text); [reflexivity | discriminate Hlen]. }
  destruct ys as [|y1 [|y2 ys']].
  - exists None. split; [reflexivity |]. split; [| discriminate].
    split; [right; apply Htext; reflexivity | reflexivity].
  - exists (Some y1). split; [reflexivity |]. split.
    + split; [discriminate |]. intros [H | H]; [discriminate |].
      apply Htext in H. discriminate.
    + intros art [= <-]. inversion Hne; assumption.
  - eexists. split; [reflexivity |]. split.
    + split; [discriminate |]. intros [H | H]; [discriminate |].
      apply Htext in H. discriminate.
    + intros art [= <-]. apply combineLines_nonempty.
Qed.

End FontPathFacts.

(** X7. Whatever the conversion libraries return or raise, a codepoint the
    resolver answers is a key of the Glyph Font Store and is the candidate
    of one of the four schemes; with an empty store every character is
    unresolved. *)
Theorem unicodeToJisHexCode_sound :
  forall jconv_encode Encoding_convert st (char : list Z),
    (forall hexCode : list Z,
        unicodeToJisHexCode jconv_encode Encoding_convert st char
        = Normal (Some hexCode) ->
        is_Some (jisCharacterMap st !! hexCode)
        /\ In (Some hexCode) (scheme_candidates jconv_encode Encoding_convert char))
    /\ (jisCharacterMap st = ∅ ->
        unicodeToJisHexCode jconv_encode Encoding_convert st char = Normal None).
Proof.
  intros jconv_encode Encoding_convert st char. split.
  - intros hexCode. apply unicodeToJisHexCode_hit.
  - intros Hempty.
    destruct (resolve_normal jconv_encode Encoding_convert st char) as [[h |] Hr];
      [| exact Hr].
    apply unicodeToJisHexCode_hit in Hr as [[g Hg] _].
    rewrite Hempty, lookup_empty in Hg. discriminate Hg.
Qed.

Lemma unicodeToJisHexCode_sound_witness :
  is_Some (jisCharacterMap sample_font !! JS.lit "2422")
  /\ In (Some (JS.lit "2422"))
        (scheme_candidates sample_jconv sample_Encoding [0x3042]).
Proof.
  apply (proj1 (unicodeToJisHexCode_sound sample_jconv sample_Encoding sample_font
                  [0x3042])).
  vm_compute. reflexivity.
Defined.

(** X8. The glyph lookup of one character never throws, also when the
    conversion libraries raise; a glyph it returns is non-empty and is the
    store's entry for the codepoint the resolver answered; an empty glyph
    in the store counts as no glyph. *)
Theorem renderJisCharacter_sound :
  forall jconv_encode Encoding_convert st (char : list Z),
    exists r,
      renderJisCharacter jconv_encode Encoding_convert st char = Normal r
      /\ (forall glyph,
            r = Some glyph ->
            glyph <> [] /\ no_font st = false
            /\ exists hexCode,
                 unicodeToJisHexCode jconv_encode Encoding_convert st char
                 = Normal (Some hexCode)
                 /\ jisCharacterMap st !! hexCode = Some glyph)
      /\ (forall hexCode,
            unicodeToJisHexCode jconv_encode Encoding_convert st char
            = Normal (Some hexCode) ->
            jisCharacterMap st !! hexCode = Some [] ->
            r = None).
Proof.
  intros jconv_encode Encoding_convert st char.
  destruct (renderJisCharacter_cases jconv_encode Encoding_convert st char)
    as (r & Hr & Hglyph).
  exists r. split; [exact Hr |]. split; [exact Hglyph |].
  intros hexCode Hcode Hempty. destruct r as [glyph |]; [| reflexivity].
  destruct (Hglyph glyph eq_refl) as (Hne & _ & h & Hh & Hg).
  rewrite Hcode in Hh. injection Hh as <-. rewrite Hempty in Hg.
  injection Hg as <-. congruence.
Qed.

Lemma renderJisCharacter_sound_witness :
  exists glyph : list Z,
    renderJisCharacter sample_jconv sample_Encoding sample_font [0x3042]
    = Normal (Some glyph)
    /\ glyph <> []
    /\ jisCharacterMap sample_font !! JS.lit "2422" = Some glyph.
Proof.
  destruct (renderJisCharacter_sound sample_jconv sample_Encoding sample_font [0x3042])
    as (r & Hr & Hglyph & _).
  vm_compute in Hr. injection Hr as <-.
  eexists. split; [vm_compute; reflexivity |].
  destruct (Hglyph _ eq_refl) as (Hne & _ & _).
  split; [exact Hne | vm_compute; reflexivity].
Defined.

(** X9. The font path [renderJapaneseWithJisFont] never throws; it returns
    null exactly when no font is loaded or the text is empty, and
    otherwise a non-empty canvas, so that [renderJapaneseText] then never
    enters the fallback compositor. *)
Theorem renderJapaneseWithJisFont_result :
  forall jconv_encode Encoding_convert st (text : list Z),
    exists r,
      renderJapaneseWithJisFont jconv_encode Encoding_convert st text = Normal r
      /\ (r = None <-> no_font st = true \/ text = [])
      /\ (forall asciiArt, r = Some asciiArt -> truthy (Some asciiArt) = true).
Proof.
  intros jconv_encode Encoding_convert st text.
  destruct (renderJapaneseWithJisFont_cases jconv_encode Encoding_convert st text)
    as (r & Hr & Hnone & Hart).
  exists r. split; [exact Hr |]. split; [exact Hnone |].
  intros asciiArt H. apply Hart in H. destruct asciiArt; [congruence | reflexivity].
Qed.

(** ** Rendering as a whole *)

Lemma colorize_total (gradient : list (option (list Z)) -> completion GradientFn)
    (asciiArt : list Z) (palette : list (list Z)) (direction : list Z) :
  (forall colors, exists g, gradient colors = Normal g) ->
  exists out, colorize gradient asciiArt palette direction = Normal out.
Proof.
  intros Htotal. unfold colorize.
  destruct (Htotal (map Some palette)) as [g Hg]. rewrite Hg.
  unfold mbind, completion_bind, cbind.
  destruct (decide (direction = JS.lit "horizontal")); [eexists; reflexivity |].
  destruct (decide (direction = JS.lit "diagonal")); [| eexists; reflexivity].
  unfold colorizeDiagonal.
  destruct (mapM_total
              (fun '(index, line) =>
                 if JS.is_blank line then Normal line
                 else
                   g0 ← gradient (shiftedPalette palette (Z.of_nat index)
                                    (Z.of_nat (length (JS.split_nl asciiArt))));
                   Normal (applyLine g0 line))
              (imap pair (JS.split_nl asciiArt))) as [rows Hrows].
  - intros [index line]. destruct (JS.is_blank line); [eexists; reflexivity |].
    destruct (Htotal (shiftedPalette palette (Z.of_nat index)
                        (Z.of_nat (length (JS.split_nl asciiArt))))) as [g0 Hg0].
    rewrite Hg0. eexists. reflexivity.
  - rewrite Hrows. eexists. reflexivity.
Qed.

(** X10. For a non-empty text composition never fails: [renderJapaneseText]
    is the colorizer applied to a non-empty canvas, the font path's when a
    font is loaded and the fallback compositor's otherwise; so any
    exception it raises comes from the gradient library, and with a
    gradient library that accepts every palette it returns. *)
Theorem renderJapaneseText_composes :
  forall jconv_encode Encoding_convert gradient st
         (text : list Z) (palette : list (list Z)) (direction : list Z),
    text <> [] ->
    exists asciiArt : list Z,
      asciiArt <> []
      /\ renderJapaneseText jconv_encode Encoding_convert gradient st
           text palette direction
         = colorize gradient asciiArt palette direction
      /\ (no_font st = true ->
          exists artLines, createJapaneseArt text = Normal artLines
                           /\ asciiArt = JS.join_nl artLines)
      /\ (no_font st = false ->
          renderJapaneseWithJisFont jconv_encode Encoding_convert st text
          = Normal (Some asciiArt))
      /\ ((forall colors, exists g, gradient colors = Normal g) ->
          exists out,
            renderJapaneseText jconv_encode Encoding_convert gradient st
              text palette direction = Normal out).
Proof.
  intros jconv_encode Encoding_convert gradient st text palette direction Hne.
  destruct (renderJapaneseWithJisFont_cases jconv_encode Encoding_convert st text)
    as (r & Hr & Hnone & Hart).
  assert (Hmain : exists asciiArt : list Z,
             asciiArt <> []
             /\ renderJapaneseText jconv_encode Encoding_convert gradient st
                  text palette direction
                = colorize gradient asciiArt palette direction
             /\ (no_font st = true ->
                 exists artLines, createJapaneseArt text = Normal artLines
                                  /\ asciiArt = JS.join_nl artLines)
             /\ (no_font st = false ->
                 renderJapaneseWithJisFont jconv_encode Encoding_convert st text
                 = Normal (Some asciiArt))).
  { unfold renderJapaneseText. rewrite Hr.
    unfold mbind, completion_bind. cbn [cbind].
    destruct r as [art |].
    - pose proof (Hart art eq_refl) as Hart'.
      destruct art as [|a art]; [congruence |].
      exists (a :: art). split; [discriminate |]. split; [reflexivity |].
      split; [| reflexivity].
      intros Hfont. assert (Some (a :: art) = None) by (apply Hnone; left; exact Hfont).
      discriminate.
    - cbn [truthy].
      rewrite (createJapaneseArt_eq text Hne). cbn [cbind].
      eexists. split; [| split; [reflexivity | split]].
      + apply join_two_nonempty. discriminate.
      + intros _. eexists. split; reflexivity.
      + intros Hfont. destruct (proj1 Hnone eq_refl) as [H | H]; congruence. }
  destruct Hmain as (asciiArt & Hne' & Heq & Hfb & Hfp).
  exists asciiArt. repeat (split; [assumption |]).
  intros Htotal. rewrite Heq. apply colorize_total, Htotal.
Qed.

Lemma renderJapaneseText_composes_witness :
  exists asciiArt : list Z,
    asciiArt <> []
    /\ renderJapaneseText sample_jconv sample_Encoding sample_gradient sample_font
         [0x3042; 0x65E5] [JS.lit "#f00"; JS.lit "#00f"] (JS.lit "horizontal")
       = colorize sample_gradient asciiArt [JS.lit "#f00"; JS.lit "#00f"]
           (JS.lit "horizontal").
Proof.
  destruct (renderJapaneseText_composes sample_jconv sample_Encoding sample_gradient
              sample_font [0x3042; 0x65E5] [JS.lit "#f00"; JS.lit "#00f"]
              (JS.lit "horizontal"))
    as (asciiArt & Hne & Heq & _); [discriminate |].
  exists asciiArt. split; [exact Hne | exact Heq].
Defined.

Lemma skip_header_none (lines : list (list Z)) :
  Forall (fun line => match_header line = None) lines -> skip_header lines = [].
Proof.
  intros H. induction H as [|l lines Hl Hlines IH]; [reflexivity |].
  simpl. rewrite Hl. exact IH.
Qed.

Lemma parse_entries_nil (fuel : nat) (m : gmap (list Z) (list Z)) :
  parse_entries fuel [] m = m.
Proof. destruct fuel; reflexivity. Qed.

(** X11. Font loading fails soft: when the font file cannot be read, or
    has no line of the shape [<decimal> <hex>], the store is empty, the
    font path answers null for every text and whatever the conversion
    libraries do, and rendering falls back to the placeholder patterns. *)
Theorem loadFont_unusable :
  forall file : completion (list Z),
    unusable_font file ->
    jisCharacterMap (loadFont file) = ∅
    /\ no_font (loadFont file) = true
    /\ forall jconv_encode Encoding_convert (text : list Z),
         renderJapaneseWithJisFont jconv_encode Encoding_convert (loadFont file) text
         = Normal None.
Proof.
  intros file Hfile.
  assert (Hmap : jisCharacterMap (loadFont file) = ∅).
  { destruct file as [data | e]; [| reflexivity].
    cbn [loadFont jisCharacterMap]. unfold parseJisFontData.
    cbn [unusable_font] in Hfile.
    rewrite (skip_header_none _ Hfile). apply parse_entries_nil. }
  assert (Hfont : no_font (loadFont file) = true).
  { unfold no_font. rewrite Hmap, map_size_empty. apply orb_true_r. }
  split; [exact Hmap |]. split; [exact Hfont |].
  intros jconv_encode Encoding_convert text.
  unfold renderJapaneseWithJisFont. rewrite Hfont. reflexivity.
Qed.

Lemma loadFont_unusable_witness :
  jisCharacterMap (loadFont (Normal (JS.join_nl [JS.lit "flf2a"; JS.lit " 12 ab"]))) = ∅.
Proof.
  apply loadFont_unusable. cbn [unusable_font].
  repeat constructor.
Defined.

(** ** The two placeholder routes agree *)

Lemma mapM_map_in {A B} (f : A -> completion B) (g : A -> B) (l : list A) :
  (forall x, In x l -> f x = Normal (g x)) -> mapM f l = Normal (map g l).
Proof.
  intros H. induction l as [|x l IH]; [reflexivity |].
  cbn [mapM map]. unfold mbind, completion_bind, cbind in *.
  rewrite H by (left; reflexivity). rewrite IH; [reflexivity |].
  intros y Hy. apply H. right. exact Hy.
Qed.

Lemma pattern_rows_eq (char : list Z) :
  map (fun row => pattern_cell row char) (seq 0 10) = generic_pattern char.
Proof. reflexivity. Qed.

Lemma Array_from_no_lf (text char : list Z) :
  no_lf text -> In char (JS.Array_from text) -> no_lf char.
Proof.
  intros Htext Hin Hlf. apply Htext.
  rewrite <- (Array_from_concat text). apply in_concat. eauto.
Qed.

Lemma pattern_rows_no_lf (char : list Z) :
  no_lf char -> Forall no_lf (generic_pattern char).
Proof.
  intros Hchar. rewrite <- pattern_rows_eq. apply Forall_forall.
  intros cells Hin. apply list_elem_of_In, in_map_iff in Hin as (row & <- & Hrow).
  apply in_seq in Hrow. apply count_lf_no_lf.
  rewrite pattern_cell_count_lf by lia.
  apply count_lf_no_lf in Hchar. rewrite Hchar.
  destruct (row =? 4)%nat; reflexivity.
Qed.

Lemma split_join_pattern (char : list Z) :
  no_lf char ->
  JS.split_nl (JS.join_nl (generic_pattern char)) = generic_pattern char.
Proof.
  intros Hchar. apply split_nl_join_nl; [| apply pattern_rows_no_lf, Hchar].
  discriminate.
Qed.

(** X12. When a font is loaded but no character of the text has a glyph
    in it, the font path builds from the placeholders exactly the canvas of
    the fallback compositor, provided the text has no line feed (a line
    feed changes the row count of its placeholder once it is joined and
    split again). *)
Theorem renderJapaneseWithJisFont_placeholders :
  forall jconv_encode Encoding_convert st (text : list Z),
    no_font st = false ->
    text <> [] ->
    no_lf text ->
    (forall char,
        In char (JS.Array_from text) ->
        renderJisCharacter jconv_encode Encoding_convert st char = Normal None) ->
    exists artLines : list (list Z),
      createJapaneseArt text = Normal artLines
      /\ renderJapaneseWithJisFont jconv_encode Encoding_convert st text
         = Normal (Some (JS.join_nl artLines)).
Proof.
  intros jconv_encode Encoding_convert st text Hfont Hne Hlf Hnone.
  eexists. split; [apply createJapaneseArt_eq, Hne |].
  unfold renderJapaneseWithJisFont. rewrite Hfont.
  rewrite (mapM_map_in _ (fun char => JS.join_nl (generic_pattern char))).
  2: { intros char Hin. rewrite (Hnone char Hin).
       unfold mbind, completion_bind. cbn [cbind truthy].
       rewrite (getJapaneseCharPattern_Array_from text char Hin). reflexivity. }
  unfold mbind, completion_bind. cbn [cbind].
  assert (Hchars : forall char, In char (JS.Array_from text) -> no_lf char)
    by (intros char; apply Array_from_no_lf, Hlf).
  assert (Hsplit : map JS.split_nl
                     (map (fun char => JS.join_nl (generic_pattern char))
                          (JS.Array_from text))
                   = map generic_pattern (JS.Array_from text)).
  { rewrite map_map. apply map_ext_in. intros char Hin.
    apply split_join_pattern, Hchars, Hin. }
  destruct (JS.Array_from text) as [|c1 [|c2 cs]] eqn:E.
  - exfalso. apply Hne. rewrite <- (Array_from_concat text), E. reflexivity.
  - reflexivity.
  - cbn [map] in Hsplit |- *. rewrite Hsplit. do 3 f_equal.
    change (generic_pattern c1 :: generic_pattern c2
            :: map generic_pattern cs)
      with (map generic_pattern (c1 :: c2 :: cs)).
    unfold combineLines.
    assert (Hmax : maxHeightOf (map generic_pattern (c1 :: c2 :: cs)) = 10%nat).
    { unfold maxHeightOf. apply max_list_same; [discriminate |].
      apply Forall_forall. intros n Hn.
      apply list_elem_of_In in Hn. rewrite map_map in Hn.
      apply in_map_iff in Hn as (char & <- & _).
      reflexivity. }
    rewrite Hmax. apply map_ext. intros row.
    rewrite append_cells_join, map_map. reflexivity.
Qed.

Lemma renderJapaneseWithJisFont_placeholders_witness :
  exists artLines : list (list Z),
    createJapaneseArt [0x65E5; 0x672C] = Normal artLines
    /\ renderJapaneseWithJisFont sample_jconv sample_Encoding sample_font
         [0x65E5; 0x672C]
       = Normal (Some (JS.join_nl artLines)).
Proof.
  apply renderJapaneseWithJisFont_placeholders.
  - vm_compute. reflexivity.
  - discriminate.
  - intros [H | [H | []]]; discriminate H.
  - intros char [<- | [<- | []]]; vm_compute; reflexivity.
Defined.

(** ** The font parser on a well-formed resource *)

Lemma span_digits_app (dec rest : list Z) (u : Z) :
  forallb is_digit dec = true -> is_digit u = false ->
  span_digits (dec ++ u :: rest) = (dec, u :: rest).
Proof.
  intros Hdec Hu. induction dec as [|d dec IH]; simpl.
  - rewrite Hu. reflexivity.
  - simpl in Hdec. apply andb_true_iff in Hdec as [Hd Hdec].
    rewrite Hd, (IH Hdec). reflexivity.
Qed.

Lemma match_header_fields (dec hex : list Z) :
  dec <> [] -> hex <> [] ->
  forallb is_digit dec = true -> forallb is_hex_digit hex = true ->
  match_header (dec ++ [32] ++ hex) = Some (dec, hex).
Proof.
  intros Hd Hh Hdec Hhex. unfold match_header.
  change (dec ++ [32] ++ hex) with (dec ++ 32 :: hex).
  rewrite span_digits_app by (exact Hdec || reflexivity).
  destruct dec as [|d dec]; [congruence |].
  destruct hex as [|h hex]; [congruence |].
  rewrite Hhex. reflexivity.
Qed.

Lemma hex_digit_not_whitespace (u : Z) :
  is_hex_digit u = true -> JS.is_whitespace u = false.
Proof. unfold is_hex_digit, is_digit, JS.is_whitespace. lia. Qed.

Lemma trimStart_id (u : Z) (s : list Z) :
  JS.is_whitespace u = false -> JS.trimStart (u :: s) = u :: s.
Proof. intros H. simpl. rewrite H. reflexivity. Qed.

Lemma trim_header (dec hex : list Z) :
  dec <> [] -> hex <> [] ->
  forallb is_digit dec = true -> forallb is_hex_digit hex = true ->
  JS.trim (dec ++ [32] ++ hex) = dec ++ [32] ++ hex.
Proof.
  intros Hd Hh Hdec Hhex. unfold JS.trim.
  assert (Hfirst : JS.trimStart (dec ++ [32] ++ hex) = dec ++ [32] ++ hex).
  { destruct dec as [|d dec]; [congruence |].
    simpl in Hdec. apply andb_true_iff in Hdec as [Hdig _].
    apply trimStart_id, hex_digit_not_whitespace.
    unfold is_hex_digit. rewrite Hdig. reflexivity. }
  rewrite Hfirst.
  assert (Hlast : JS.trimStart (rev (dec ++ [32] ++ hex)) = rev (dec ++ [32] ++ hex)).
  { rewrite !rev_app_distr.
    destruct (rev hex) as [|x xs] eqn:E.
    - exfalso. apply Hh. rewrite <- (rev_involutive hex), E. reflexivity.
    - cbn [app]. apply trimStart_id, hex_digit_not_whitespace.
      rewrite forallb_forall in Hhex. apply Hhex, in_rev. rewrite E. left. reflexivity. }
  rewrite Hlast. apply rev_involutive.
Qed.

Lemma plain_row_cons (u : Z) (row : list Z) :
  plain_row (u :: row) = true -> u <> 64 /\ plain_row row = true.
Proof.
  simpl. intros H. apply andb_true_iff in H as [Hu Hrow].
  apply andb_true_iff in Hu as [Hu _].
  destruct (Z.eqb_spec u 64); [discriminate | split; assumption].
Qed.

Lemma includes_end_marker_row (row : list Z) :
  plain_row row = true -> JS.includes (JS.lit "@@") (row ++ JS.lit "$@") = false.
Proof.
  induction row as [|u row IH]; intros Hrow; [reflexivity |].
  apply plain_row_cons in Hrow as [Hu Hrow].
  cbn [app JS.includes]. rewrite (IH Hrow), orb_false_r.
  change (JS.lit "@@") with [64; 64]. cbn [JS.startsWith].
  destruct (Z.eqb_spec 64 u); [congruence | reflexivity].
Qed.

Lemma includes_marker_row (row : list Z) :
  JS.includes (JS.lit "$@") (row ++ JS.lit "$@") = true.
Proof.
  induction row as [|u row IH]; [reflexivity |].
  cbn [app JS.includes]. rewrite IH. apply orb_true_r.
Qed.

Lemma includes_end_marker_last (row : list Z) :
  JS.includes (JS.lit "@@") (row ++ JS.lit "$@@") = true.
Proof.
  induction row as [|u row IH]; [reflexivity |].
  cbn [app JS.includes]. rewrite IH. apply orb_true_r.
Qed.

Lemma startsWith_dollar_at (row marker rest : list Z) (u : Z) :
  plain_row (u :: row) = true ->
  JS.startsWith (36 :: 64 :: rest) (u :: row ++ 36 :: marker) = false.
Proof.
  intros Hrow. apply plain_row_cons in Hrow as [_ Hrow].
  cbn [JS.startsWith]. destruct row as [|v row].
  - cbn [app]. change (64 =? 36) with false. cbn [andb]. apply andb_false_r.
  - apply plain_row_cons in Hrow as [Hv _]. cbn [app].
    destruct (Z.eqb_spec 64 v); [congruence |]. cbn [andb]. apply andb_false_r.
Qed.

Lemma replace_marker_row (row : list Z) :
  plain_row row = true -> JS.replace (JS.lit "$@") [] (row ++ JS.lit "$@") = row.
Proof.
  induction row as [|u row IH]; intros Hrow; [reflexivity |].
  change (JS.lit "$@") with [36; 64] in *.
  cbn [app JS.replace].
  rewrite (startsWith_dollar_at row [64] [] u Hrow).
  apply plain_row_cons in Hrow as [_ Hrow]. rewrite (IH Hrow). reflexivity.
Qed.

Lemma replace_marker_last (row : list Z) :
  plain_row row = true -> JS.replace (JS.lit "$@@") [] (row ++ JS.lit "$@@") = row.
Proof.
  induction row as [|u row IH]; intros Hrow; [reflexivity |].
  change (JS.lit "$@@") with [36; 64; 64] in *.
  cbn [app JS.replace].
  rewrite (startsWith_dollar_at row [64; 64] [64] u Hrow).
  apply plain_row_cons in Hrow as [_ Hrow]. rewrite (IH Hrow). reflexivity.
Qed.

(** The glyph reader on the rows of an entry: it collects the rows without
    their markers and stops on the last one. *)
Lemma read_glyph_entry (rows : list (list Z)) (last : list Z)
    (rest glyphLines : list (list Z)) :
  forallb plain_row rows = true -> plain_row last = true ->
  read_glyph (map (fun row => row ++ JS.lit "$@") rows
              ++ (last ++ JS.lit "$@@") :: rest) glyphLines
  = (glyphLines ++ rows ++ [last], (last ++ JS.lit "$@@") :: rest).
Proof.
  intros Hrows Hlast. revert glyphLines.
  induction rows as [|row rows IH]; intros glyphLines.
  - cbn [map app read_glyph].
    rewrite includes_end_marker_last, (replace_marker_last last Hlast). reflexivity.
  - simpl in Hrows. apply andb_true_iff in Hrows as [Hrow Hrows].
    cbn [map app read_glyph].
    rewrite (includes_end_marker_row row Hrow), includes_marker_row.
    rewrite (replace_marker_row row Hrow), (IH Hrows).
    rewrite <- app_assoc. reflexivity.
Qed.

Lemma well_formed_entry_fields (e : FontEntry) :
  well_formed_entry e = true ->
  entry_decimal e <> [] /\ entry_hex e <> []
  /\ forallb is_digit (entry_decimal e) = true
  /\ forallb is_hex_digit (entry_hex e) = true
  /\ forallb plain_row (entry_rows e) = true
  /\ plain_row (entry_last e) = true.
Proof.
  unfold well_formed_entry.
  destruct (entry_decimal e) as [|d dec]; [discriminate |].
  destruct (entry_hex e) as [|h hex]; [discriminate |].
  intros H. apply andb_true_iff in H as [H Hlast].
  apply andb_true_iff in H as [H Hrows]. apply andb_true_iff in H as [Hdec Hhex].
  repeat split; try assumption; discriminate.
Qed.

(** One round of the entry loop consumes a whole well-formed entry and
    stores its glyph. *)
Lemma parse_entries_entry (fuel : nat) (e : FontEntry) (rest : list (list Z))
    (m : gmap (list Z) (list Z)) :
  well_formed_entry e = true ->
  parse_entries (S fuel) (entry_lines e ++ rest) m
  = parse_entries fuel rest (store_entry m e).
Proof.
  intros Hwf.
  destruct (well_formed_entry_fields e Hwf) as (Hd & Hh & Hdec & Hhex & Hrows & Hlast).
  unfold entry_lines. rewrite <- app_comm_cons, <- app_assoc.
  cbn [parse_entries].
  rewrite (trim_header _ _ Hd Hh Hdec Hhex), (match_header_fields _ _ Hd Hh Hdec Hhex).
  change ([entry_last e ++ JS.lit "$@@"] ++ rest)
    with ((entry_last e ++ JS.lit "$@@") :: rest).
  rewrite (read_glyph_entry _ _ rest [] Hrows Hlast). cbn [app tail].
  assert (Hpos : (0 <? Z.of_nat (length (entry_rows e ++ [entry_last e]))) = true).
  { apply Z.ltb_lt. rewrite length_app. simpl. lia. }
  rewrite Hpos. reflexivity.
Qed.

Lemma entry_lines_length (e : FontEntry) : (2 <= length (entry_lines e))%nat.
Proof. unfold entry_lines. cbn [length]. rewrite length_app. simpl. lia. Qed.

Lemma parse_entries_all (entries : list FontEntry) (fuel : nat)
    (m : gmap (list Z) (list Z)) :
  Forall (fun e => well_formed_entry e = true) entries ->
  (length (concat (map entry_lines entries)) <= fuel)%nat ->
  parse_entries fuel (concat (map entry_lines entries)) m
  = fold_left store_entry entries m.
Proof.
  intros Hwf. revert fuel m.
  induction Hwf as [|e entries He Hwf IH]; intros fuel m Hfuel.
  - apply parse_entries_nil.
  - cbn [map concat fold_left] in *. rewrite length_app in Hfuel.
    pose proof (entry_lines_length e).
    destruct fuel as [|fuel]; [lia |].
    rewrite (parse_entries_entry fuel e _ m He). apply IH. lia.
Qed.

Lemma skip_header_preamble (preamble lines : list (list Z)) :
  Forall (fun line => match_header line = None) preamble ->
  (lines = [] \/ exists header tl, lines = header :: tl /\ match_header header <> None) ->
  skip_header (preamble ++ lines) = lines.
Proof.
  intros Hpre Hlines. induction Hpre as [|l preamble Hl Hpre IH].
  - destruct Hlines as [-> | (header & tl & -> & Hh)]; [reflexivity |].
    cbn [app skip_header]. destruct (match_header header); [reflexivity | congruence].
  - cbn [app skip_header]. rewrite Hl. exact IH.
Qed.

Lemma plain_row_no_lf (row : list Z) : plain_row row = true -> no_lf row.
Proof.
  intros H Hin. unfold plain_row in H. rewrite forallb_forall in H.
  apply H in Hin. discriminate Hin.
Qed.

Lemma no_lf_app (a b : list Z) : no_lf a -> no_lf b -> no_lf (a ++ b).
Proof. intros Ha Hb Hin. apply in_app_or in Hin as [H | H]; auto. Qed.

Lemma hex_digits_no_lf (s : list Z) : forallb is_hex_digit s = true -> no_lf s.
Proof.
  intros H Hin. rewrite forallb_forall in H. apply H in Hin. discriminate Hin.
Qed.

Lemma entry_lines_no_lf (e : FontEntry) :
  well_formed_entry e = true -> Forall no_lf (entry_lines e).
Proof.
  intros Hwf.
  destruct (well_formed_entry_fields e Hwf) as (_ & _ & Hdec & Hhex & Hrows & Hlast).
  assert (Hlit : forall s, no_lf s -> no_lf (s ++ JS.lit "$@") /\ no_lf (s ++ JS.lit "$@@")).
  { intros s Hs. split; apply no_lf_app; try exact Hs;
      intros Hin; vm_compute in Hin; intuition discriminate. }
  unfold entry_lines. constructor.
  - apply no_lf_app; [| apply no_lf_app].
    + apply hex_digits_no_lf. rewrite forallb_forall in Hdec |- *.
      intros x Hx. unfold is_hex_digit. rewrite (Hdec x Hx). reflexivity.
    + intros [H | []]. discriminate H.
    + apply hex_digits_no_lf, Hhex.
  - apply Forall_app. split.
    + apply Forall_forall. intros line Hline.
      apply list_elem_of_In, in_map_iff in Hline as (row & <- & Hrow).
      rewrite forallb_forall in Hrows.
      apply Hlit, plain_row_no_lf, Hrows, Hrow.
    + constructor; [| constructor]. apply Hlit, plain_row_no_lf, Hlast.
Qed.

(** X13. On a well-formed font resource (any header lines, none of the
    shape of a table header, then entries of a line [<decimal> <hex>],
    rows ending in [$@] and a last row ending in [$@@]) the parser stores
    every entry, in file order, under its hex code in lower case, with the
    markers stripped and each [#] turned into the ink literal; so the last
    entry of a code is the one a lookup finds, with its glyph. *)
Theorem parseJisFontData_entries :
  forall (preamble : list (list Z)) (entries : list FontEntry)
         (m : gmap (list Z) (list Z)),
    Forall (fun line => match_header line = None /\ no_lf line) preamble ->
    Forall (fun e => well_formed_entry e = true) entries ->
    let fontData := JS.join_nl (preamble ++ concat (map entry_lines entries)) in
    parseJisFontData fontData m = fold_left store_entry entries m
    /\ forall (before : list FontEntry) (e : FontEntry),
         entries = before ++ [e] ->
         parseJisFontData fontData m !! JS.toLowerCase (entry_hex e)
         = Some (entry_glyph e).
Proof.
  intros preamble entries m Hpre Hwf fontData.
  assert (Hparse : parseJisFontData fontData m = fold_left store_entry entries m).
  { subst fontData. unfold parseJisFontData.
    set (lines := preamble ++ concat (map entry_lines entries)).
    assert (Hpre1 : Forall (fun line => match_header line = None) preamble)
      by (eapply Forall_impl; [exact Hpre | intros ? [? _]; assumption]).
    assert (Hskip : skip_header lines = concat (map entry_lines entries)).
    { apply skip_header_preamble; [exact Hpre1 |].
      destruct Hwf as [|e entries' He _]; [left; reflexivity |].
      right. destruct (well_formed_entry_fields e He) as (Hd & Hh & Hdec & Hhex & _).
      eexists _, _. split; [reflexivity |].
      rewrite (match_header_fields _ _ Hd Hh Hdec Hhex). discriminate. }
    destruct lines as [|l0 ls] eqn:El.
    - (* no line at all: the empty text splits into one empty line *)
      destruct entries as [|e entries'].
      + reflexivity.
      + exfalso. subst lines. destruct preamble; discriminate El.
    - rewrite split_nl_join_nl.
      + rewrite Hskip. apply parse_entries_all; [exact Hwf |].
        rewrite <- El. subst lines. rewrite length_app. lia.
      + discriminate.
      + rewrite <- El. subst lines. apply Forall_app. split.
        * eapply Forall_impl; [exact Hpre | intros ? [_ ?]; assumption].
        * clear -Hwf. induction Hwf as [|e es He _ IH]; [constructor |].
          cbn [map concat]. apply Forall_app. split;
            [apply entry_lines_no_lf, He | exact IH]. }
  split; [exact Hparse |].
  intros before e ->. rewrite Hparse, fold_left_app. cbn [fold_left].
  unfold store_entry at 1. apply lookup_insert_eq.
Qed.

Lemma parseJisFontData_entries_witness :
  parseJisFontData sample_fontData ∅ !! JS.lit "82a0"
  = Some (ink_literal ++ ink_literal ++ ink_literal ++ ink_literal ++ [10]
               ++ ink_literal ++ [32; 32] ++ ink_literal).
Proof.
  destruct (parseJisFontData_entries
              [JS.lit "flf2a$ 2 2 4 0 1"; JS.lit "sample"]
              [ {| entry_decimal := JS.lit "9250"; entry_hex := JS.lit "2422";
                   entry_rows := [JS.lit " ##"]; entry_last := JS.lit "#  #" |};
                {| entry_decimal := JS.lit "33440"; entry_hex := JS.lit "82A0";
                   entry_rows := [JS.lit "####"]; entry_last := JS.lit "#  #" |} ]
              ∅) as [_ Hlookup].
  - repeat constructor; intros Hin; vm_compute in Hin; intuition discriminate.
  - repeat constructor.
  - exact (Hlookup
             [ {| entry_decimal := JS.lit "9250"; entry_hex := JS.lit "2422";
                  entry_rows := [JS.lit " ##"]; entry_last := JS.lit "#  #" |} ]
             {| entry_decimal := JS.lit "33440"; entry_hex := JS.lit "82A0";
                entry_rows := [JS.lit "####"]; entry_last := JS.lit "#  #" |}
             eq_refl).
Defined.

(** ** More on the store and the codepoints *)

Lemma replaceAll1_no_hash (row : list Z) :
  ~ In 35 (JS.replaceAll1 35 ink_literal row).
Proof.
  unfold JS.replaceAll1. intros Hin. apply in_flat_map in Hin as (u & _ & Hu).
  destruct (u =? 35) eqn:E.
  - destruct Hu as [Hu | [Hu | [Hu | []]]]; discriminate Hu.
  - destruct Hu as [Hu | []]. subst u. discriminate E.
Qed.

Lemma join_nl_no_hash (rows : list (list Z)) :
  Forall (fun row => ~ In 35 row) rows -> ~ In 35 (JS.join_nl rows).
Proof.
  unfold JS.join_nl. intros H. induction H as [|r rows Hr Hrows IH]; [intros [] |].
  destruct rows as [|r' rows']; [exact Hr |].
  rewrite join_cons by discriminate. intros Hin.
  apply in_app_or in Hin as [Hin | Hin]; [exact (Hr Hin) |].
  apply in_app_or in Hin as [[Hin | []] | Hin]; [discriminate Hin | exact (IH Hin)].
Qed.

Lemma parse_entries_invariant (P : list Z -> list Z -> Prop) (fuel : nat)
    (lines : list (list Z)) (m : gmap (list Z) (list Z)) :
  (forall hex glyphLines,
      hex <> [] -> forallb is_hex_digit hex = true -> glyphLines <> [] ->
      P (JS.toLowerCase hex)
        (JS.join_nl (map (JS.replaceAll1 35 ink_literal) glyphLines))) ->
  map_Forall P m -> map_Forall P (parse_entries fuel lines m).
Proof.
  intros HP. revert lines m.
  induction fuel as [|fuel IH]; intros lines m Hm; [exact Hm |].
  destruct lines as [|l rest]; [exact Hm |]. simpl.
  destruct (match_header (JS.trim l)) as [[dec hex] |] eqn:Hh; [| apply IH, Hm].
  apply match_header_hex in Hh as [Hne Hhex].
  destruct (read_glyph rest []) as [glyphLines cursor].
  apply IH.
  destruct (Z.ltb_spec 0 (Z.of_nat (length glyphLines))) as [Hpos | _]; [| exact Hm].
  apply map_Forall_insert_2; [| exact Hm].
  apply HP; try assumption. destruct glyphLines; [simpl in Hpos; lia | discriminate].
Qed.

Lemma parse_entries_keeps (fuel : nat) (lines : list (list Z))
    (m : gmap (list Z) (list Z)) (k : list Z) :
  is_Some (m !! k) -> is_Some (parse_entries fuel lines m !! k).
Proof.
  revert lines m. induction fuel as [|fuel IH]; intros lines m Hk; [exact Hk |].
  destruct lines as [|l rest]; [exact Hk |]. simpl.
  destruct (match_header (JS.trim l)) as [[dec hex] |]; [| apply IH, Hk].
  destruct (read_glyph rest []) as [glyphLines cursor].
  apply IH. destruct (0 <? Z.of_nat (length glyphLines)); [| exact Hk].
  destruct (decide (JS.toLowerCase hex = k)) as [-> | Hne].
  - rewrite lookup_insert_eq. eauto.
  - rewrite lookup_insert_ne by exact Hne. exact Hk.
Qed.

(** X14. Whatever the font text, no glyph the parser stores holds a [#]:
    every ink marker has been turned into the ink literal; and parsing only
    adds or replaces entries, a key present before is present after. *)
Theorem parseJisFontData_store :
  forall fontData : list Z,
    (forall k glyph : list Z,
        parseJisFontData fontData ∅ !! k = Some glyph -> ~ In 35 glyph)
    /\ (forall (m : gmap (list Z) (list Z)) (k : list Z),
          is_Some (m !! k) -> is_Some (parseJisFontData fontData m !! k)).
Proof.
  intros fontData. split.
  - intros k glyph Hk. unfold parseJisFontData in Hk.
    refine (parse_entries_invariant (fun _ g => ~ In 35 g) _ _ ∅ _
              (map_Forall_empty _) k glyph Hk).
    intros hex glyphLines _ _ _. apply join_nl_no_hash.
    apply Forall_forall. intros row Hrow.
    apply list_elem_of_In, in_map_iff in Hrow as (r & <- & _).
    apply replaceAll1_no_hash.
  - intros m k Hk. apply parse_entries_keeps, Hk.
Qed.

Lemma parseJisFontData_store_witness :
  exists glyph : list Z,
    parseJisFontData sample_fontData ∅ !! JS.lit "2422" = Some glyph
    /\ ~ In 35 glyph.
Proof.
  eexists. split; [vm_compute; reflexivity |].
  apply (proj1 (parseJisFontData_store sample_fontData) (JS.lit "2422")).
  vm_compute. reflexivity.
Defined.

(** X15. Two byte pairs give the same codepoint string only when they are
    the same pair: the resolver's four-digit form loses nothing. *)
Theorem hexCodeOf_injective :
  forall b1 b2 c1 c2 : Z,
    0 <= b1 < 256 -> 0 <= b2 < 256 -> 0 <= c1 < 256 -> 0 <= c2 < 256 ->
    hexCodeOf b1 b2 = hexCodeOf c1 c2 ->
    b1 = c1 /\ b2 = c2.
Proof.
  intros b1 b2 c1 c2 Hb1 Hb2 Hc1 Hc2 Heq.
  apply (f_equal hex_value) in Heq.
  rewrite !hexCodeOf_value in Heq by assumption. lia.
Qed.

Lemma hexCodeOf_injective_witness : 0x24 = 0x24 /\ 0x22 = 0x22.
Proof.
  apply (hexCodeOf_injective 0x24 0x22 0x24 0x22); try lia. reflexivity.
Defined.

Lemma candidate_shape (bytes : option (list Z)) (hexCode : list Z) :
  (forall bs, bytes = Some bs -> Forall (fun b => 0 <= b < 256) bs) ->
  jis_candidate bytes = Some hexCode \/ pair_candidate bytes = Some hexCode ->
  length hexCode = 4%nat /\ is_lower_hex hexCode = true.
Proof.
  intros Hbytes H. destruct bytes as [bs |]; [| destruct H; discriminate].
  specialize (Hbytes bs eq_refl).
  destruct H as [H | H].
  - destruct bs as [|e0 [|e1 [|e2 [|b3 [|b4 rest]]]]]; try discriminate.
    injection H as <-.
    repeat match goal with H : Forall _ (_ :: _) |- _ => inversion H; clear H; subst end.
    apply hexCodeOf_shape; assumption.
  - destruct bs as [|b0 [|b1 rest]]; try discriminate.
    injection H as <-.
    repeat match goal with H : Forall _ (_ :: _) |- _ => inversion H; clear H; subst end.
    apply hexCodeOf_shape; assumption.
Qed.

(** X16. With conversion libraries that return byte arrays, every
    codepoint the resolver answers has exactly four digits 0-9a-f; a font
    entry whose hex field is shorter or longer, or which the parser could
    not key in that form, is never the one a character resolves to. *)
Theorem unicodeToJisHexCode_four_digits :
  forall jconv_encode Encoding_convert st (char hexCode : list Z),
    gives_bytes jconv_encode ->
    gives_bytes Encoding_convert ->
    unicodeToJisHexCode jconv_encode Encoding_convert st char
    = Normal (Some hexCode) ->
    length hexCode = 4%nat /\ is_lower_hex hexCode = true.
Proof.
  intros jconv_encode Encoding_convert st char hexCode Hj He Hr.
  apply unicodeToJisHexCode_hit in Hr as [_ Hin].
  assert (Hmiss : forall convert input encoding bs,
             gives_bytes convert ->
             miss_on_error (convert input encoding) = Some bs ->
             Forall (fun b => 0 <= b < 256) bs).
  { intros convert input encoding bs Hc Hm.
    destruct (convert input encoding) as [[bs' |] | e] eqn:E; try discriminate.
    injection Hm as <-. eapply Hc. exact E. }
  unfold scheme_candidates in Hin.
  destruct Hin as [H | [H | [H | [H | []]]]];
    (eapply candidate_shape; [| first [left; exact H | right; exact H]]);
    intros bs Hbs; eapply Hmiss; try exact Hbs; assumption.
Qed.

Lemma unicodeToJisHexCode_four_digits_witness :
  length (JS.lit "2422") = 4%nat /\ is_lower_hex (JS.lit "2422") = true.
Proof.
  apply (unicodeToJisHexCode_four_digits byte_jconv sample_Encoding sample_font
           [0x3042]).
  - intros input encoding bytes. unfold byte_jconv.
    destruct (decide (input = [0x3042])) as [-> | _].
    + destruct (decide (encoding = JS.lit "JIS")); intros [= <-];
        repeat constructor; lia.
    + intros [= <-]. apply Forall_forall. intros b Hb.
      apply list_elem_of_In, in_map_iff in Hb as (u & <- & _).
      apply Z.mod_pos_bound. lia.
  - intros input encoding bytes [= <-]. constructor.
  - vm_compute. reflexivity.
Defined.

(** ** Canvases of white space *)

Lemma join_split_nl_aux (cur s : list Z) :
  JS.join_nl (JS.split_nl_aux cur s) = rev cur ++ s.
Proof.
  unfold JS.join_nl. revert cur. induction s as [|u s IH]; intros cur.
  - simpl. rewrite app_nil_r. reflexivity.
  - cbn [JS.split_nl_aux]. destruct (Z.eqb_spec u 10) as [-> | _].
    + rewrite join_cons.
      * rewrite IH. reflexivity.
      * intros H. pose proof (split_nl_aux_length [] s) as Hlen.
        rewrite H in Hlen. discriminate Hlen.
    + rewrite IH. simpl. rewrite <- app_assoc. reflexivity.
Qed.

Lemma split_nl_aux_Forall (P : Z -> Prop) (cur s : list Z) :
  Forall P cur -> Forall P s -> Forall (Forall P) (JS.split_nl_aux cur s).
Proof.
  revert cur. induction s as [|u s IH]; intros cur Hcur Hs; cbn [JS.split_nl_aux].
  - constructor; [| constructor]. apply Forall_rev. exact Hcur.
  - inversion Hs as [|? ? Hu Hs']; subst.
    destruct (u =? 10).
    + constructor; [apply Forall_rev; exact Hcur | apply IH; [constructor | exact Hs']].
    + apply IH; [constructor; assumption | exact Hs'].
Qed.

Lemma trimStart_blank (s : list Z) :
  forallb JS.is_whitespace s = true -> JS.trimStart s = [].
Proof.
  induction s as [|u s IH]; [reflexivity |]. simpl.
  intros H. apply andb_true_iff in H as [Hu Hs]. rewrite Hu. apply IH, Hs.
Qed.

Lemma trimStart_not_blank (s : list Z) :
  forallb JS.is_whitespace s = false ->
  exists u rest, JS.trimStart s = u :: rest /\ JS.is_whitespace u = false.
Proof.
  induction s as [|u s IH]; [discriminate |]. simpl.
  destruct (JS.is_whitespace u) eqn:Hu; simpl.
  - exact IH.
  - intros _. exists u, s. split; [reflexivity | exact Hu].
Qed.

(** The renderer's test [line.trim() === ''] holds exactly of the rows made
    of white space alone, the empty row among them. *)
Lemma is_blank_spec (s : list Z) :
  JS.is_blank s = forallb JS.is_whitespace s.
Proof.
  unfold JS.is_blank, JS.trim.
  destruct (forallb JS.is_whitespace s) eqn:E.
  - rewrite (trimStart_blank s E). reflexivity.
  - destruct (trimStart_not_blank s E) as (u & rest & -> & Hu).
    assert (E' : forallb JS.is_whitespace (rev (u :: rest)) = false).
    { simpl. rewrite forallb_app. simpl. rewrite Hu.
      rewrite andb_false_r. reflexivity. }
    destruct (trimStart_not_blank _ E') as (u' & rest' & -> & _).
    simpl. destruct (rev rest' ++ [u']) eqn:Er; [| reflexivity].
    apply app_eq_nil in Er as [_ Er]. discriminate Er.
Qed.

Lemma split_nl_blank (asciiArt : list Z) :
  forallb JS.is_whitespace asciiArt = true ->
  forall line, In line (JS.split_nl asciiArt) -> JS.is_blank line = true.
Proof.
  intros Hart line Hline.
  assert (Hall : Forall (Forall (fun u => JS.is_whitespace u = true))
                   (JS.split_nl asciiArt)).
  { apply split_nl_aux_Forall; [constructor |].
    apply Forall_forall. intros u Hu. apply list_elem_of_In in Hu.
    exact (proj1 (forallb_forall _ _) Hart u Hu). }
  rewrite Forall_forall in Hall. apply list_elem_of_In in Hline.
  specialize (Hall line Hline).
  rewrite is_blank_spec. apply forallb_forall. intros u Hu.
  rewrite Forall_forall in Hall. apply Hall, list_elem_of_In, Hu.
Qed.

(** X17. A canvas made of white space and line feeds alone passes the
    horizontal and the diagonal colorizer unchanged, once the gradient
    library has accepted the palette: every row meets the blank-row test,
    no row is handed to the library, and joining the rows gives the canvas
    back. *)
Theorem colorize_blank_canvas :
  forall (gradient : list (option (list Z)) -> completion GradientFn)
         (asciiArt : list Z) (palette : list (list Z)) (direction : list Z)
         (gradientFn : GradientFn),
    forallb JS.is_whitespace asciiArt = true ->
    gradient (map Some palette) = Normal gradientFn ->
    direction = JS.lit "horizontal" \/ direction = JS.lit "diagonal" ->
    colorize gradient asciiArt palette direction = Normal asciiArt.
Proof.
  intros gradient asciiArt palette direction gradientFn Hblank Hg Hdir.
  pose proof (split_nl_blank asciiArt Hblank) as Hrows.
  unfold colorize. rewrite Hg. unfold mbind, completion_bind. cbn [cbind].
  destruct (decide (direction = JS.lit "horizontal")) as [Hh | Hh].
  - f_equal. unfold colorizeHorizontal.
    rewrite (map_ext_in _ (fun line => line)).
    + rewrite map_id. apply (join_split_nl_aux [] asciiArt).
    + intros line Hline. rewrite (Hrows line Hline). reflexivity.
  - destruct (decide (direction = JS.lit "diagonal")) as [Hd | Hd];
      [| destruct Hdir; contradiction].
    unfold colorizeDiagonal.
    rewrite (mapM_map_in _ (fun p : nat * list Z => snd p)).
    + cbn [cbind]. f_equal.
      assert (Hsnd : forall (l : list (list Z)) (k : nat),
                 map (fun p : nat * list Z => snd p) (imap (fun i => pair (k + i)%nat) l) = l).
      { induction l as [|x l IH]; intros k; [reflexivity |].
        cbn [imap map snd]. f_equal.
        rewrite <- (IH (S k)) at 2. f_equal. apply imap_ext.
        intros i y _. simpl. f_equal. lia. }
      assert (H0 : map (fun p : nat * list Z => snd p)
                     (imap pair (JS.split_nl asciiArt)) = JS.split_nl asciiArt)
        by exact (Hsnd (JS.split_nl asciiArt) 0%nat).
      rewrite H0.
      apply (join_split_nl_aux [] asciiArt).
    + intros [index line] Hin. simpl.
      assert (Hline : In line (JS.split_nl asciiArt)).
      { apply list_elem_of_In in Hin. apply elem_of_lookup_imap in Hin
          as (i & y & Heq & Hy). injection Heq as _ ->.
        apply list_elem_of_In. eapply list_elem_of_lookup_2. exact Hy. }
      rewrite (Hrows line Hline). reflexivity.
Qed.

Lemma colorize_blank_canvas_witness :
  colorize sample_gradient [32; 10; 0x3000; 32] [JS.lit "#f00"; JS.lit "#00f"]
    (JS.lit "diagonal")
  = Normal [32; 10; 0x3000; 32].
Proof.
  apply (colorize_blank_canvas sample_gradient [32; 10; 0x3000; 32]
           [JS.lit "#f00"; JS.lit "#00f"] (JS.lit "diagonal")
           {| applyLine :=
                flat_map (fun u => if JS.is_whitespace u then [u] else [27; u]);
              multiline :=
                flat_map (fun u => if u =? 10 then [u] else [27; u]) |}).
  - reflexivity.
  - reflexivity.
  - right. reflexivity.
Defined.
